(** * go-azure: graceful shutdown of an HTTP server on arrival of a new binary

    A shallow embedding of [main.go]: the connection-counting wrappers
    ([semConn], [stoppableListener]), the file watcher ([startWatcher]), the
    bounded drain wait ([waitClients]), the entry point ([main]) and the
    request handler ([rootHandler]), followed by the properties of each.

    Conventions.
    - Go's [error] is [option string]; [None] is [nil].
    - A Go call either returns or panics: [outcome].
    - Code that mutates process-wide state ([wg], the log, the underlying
      network objects) is written in a state-and-panic monad [M] over
      [world]; every primitive also appends to [trace], so that the order of
      effects can be stated.
    - Goroutines are modelled by interleaving: a goroutine is a small
      automaton, and the scheduler is a nondeterministic step relation. *)

From stdpp Require Import base numbers list strings pretty gmap relations.

Open Scope Z_scope.

(** ** Go values *)

Definition error := option string.

Inductive outcome (A : Type) : Type :=
  | Returned (a : A)
  | Panicked (msg : string).
Arguments Returned {A} a.
Arguments Panicked {A} msg.

(** ** The interfaces of package [net] that the program embeds

    [net.Conn] and [net.Listener] are interfaces; the program works with
    any implementation.  An implementation is a state type with the methods
    the program calls. *)

Class NetConn (C : Type) := {
  conn_Close : C → C * error;
  conn_RemoteAddr : C → string
}.

Class NetListener (L C : Type) := {
  lis_Accept : L → L * (option C * error);
  lis_Close : L → L * error
}.

(** A handle is the address of a connection object.  The dynamic value of a
    [net.Conn] interface variable is [nil], a connection as returned by the
    underlying listener, or that connection wrapped in a [semConn]. *)

Definition handle := nat.

Inductive connValue : Type :=
  | NilConn
  | RawConn (h : handle)
  | SemConn (h : handle).

(** ** Effects *)

Inductive effect : Type :=
  | EConnClose (h : handle) (err : error)
  | EListenerAccept (err : error)
  | EListenerClose (err : error)
  | EWgAdd (delta : Z)
  | ELog (msg : string).

Section Net.
Context {C L : Type} `{!NetConn C} `{!NetListener L C}.

(** [wg] is the package-level [sync.WaitGroup]; [conns] is the heap of
    connection objects; [listener] is the embedded [net.Listener]. *)
Record world : Type := World {
  wg : Z;
  conns : gmap handle C;
  next : handle;
  listener : L;
  trace : list effect
}.

Definition M (A : Type) : Type := world → outcome A * world.

Definition ret {A} (a : A) : M A := λ w, (Returned a, w).

Definition bind {A B} (m : M A) (k : A → M B) : M B :=
  λ w, match m w with
       | (Returned a, w') => k a w'
       | (Panicked msg, w') => (Panicked msg, w')
       end.

Definition panic {A} (msg : string) : M A := λ w, (Panicked msg, w).

Definition emit (e : effect) : M unit :=
  λ w, (Returned tt,
        World (wg w) (conns w) (next w) (listener w) (trace w ++ [e])).

End Net.

Arguments world : clear implicits.
Arguments M : clear implicits.

#[global] Instance M_ret {C L} : MRet (M C L) := λ A, @ret C L A.
#[global] Instance M_bind {C L} : MBind (M C L) := λ A B k m, @bind C L A B m k.

Section Wrappers.
Context {C L : Type} `{!NetConn C} `{!NetListener L C}.

#[local] Abbreviation M := (M C L).

(** *** [sync.WaitGroup]

    [Add] adds [delta] to the counter and panics when the result is
    negative; [Done] is [Add(-1)].  The addition is atomic, so concurrent
    callers are serialised in some order. *)

Definition wg_Add (delta : Z) : M unit :=
  λ w, let v := wg w + delta in
       let w' := World v (conns w) (next w) (listener w)
                       (trace w ++ [EWgAdd delta]) in
       if v <? 0 then (Panicked "sync: negative WaitGroup counter", w')
       else (Returned tt, w').

Definition wg_Done : M unit := wg_Add (-1).

(** *** [log.Printf] *)

Definition log_Printf (msg : string) : M unit := emit (ELog msg).

(** *** Calls through the [net.Conn] held by a [semConn]

    A call on a handle that is not in the heap is a nil dereference. *)

Definition Conn_Close (h : handle) : M error :=
  λ w, match conns w !! h with
       | Some c =>
           let '(c', err) := conn_Close c in
           (Returned err,
            World (wg w) (<[h:=c']> (conns w)) (next w) (listener w)
                  (trace w ++ [EConnClose h err]))
       | None => (Panicked "invalid memory address or nil pointer dereference", w)
       end.

Definition Conn_RemoteAddr (h : handle) : M string :=
  λ w, match conns w !! h with
       | Some c => (Returned (conn_RemoteAddr c), w)
       | None => (Panicked "invalid memory address or nil pointer dereference", w)
       end.

(** *** [func (c semConn) Close() (err error)] *)

Definition semConn_Close (h : handle) : M error :=
  err ← Conn_Close h;
  addr ← Conn_RemoteAddr h;
  log_Printf ("connection to " +:+ addr +:+ " closed");;
  wg_Done;;
  mret err.

(** *** The embedded listener's [Accept] and [Close]

    A connection object returned by the underlying listener is allocated in
    the heap; the interface value handed back is its handle, or [nil]. *)

Definition Listener_Accept : M (option handle * error) :=
  λ w, let '(l', (oc, err)) := lis_Accept (listener w) in
       match oc with
       | Some c =>
           (Returned (Some (next w), err),
            World (wg w) (<[next w:=c]> (conns w)) (S (next w)) l'
                  (trace w ++ [EListenerAccept err]))
       | None =>
           (Returned (None, err),
            World (wg w) (conns w) (next w) l'
                  (trace w ++ [EListenerAccept err]))
       end.

Definition Listener_Close : M error :=
  λ w, let '(l', err) := lis_Close (listener w) in
       (Returned err,
        World (wg w) (conns w) (next w) l' (trace w ++ [EListenerClose err])).

(** The interface value [c] as the underlying listener returned it. *)
Definition unwrapped (c : option handle) : connValue :=
  match c with
  | Some h => RawConn h
  | None => NilConn
  end.

(** *** [func (l *stoppableListener) Accept() (c net.Conn, err error)]

    With [err == nil] the method calls [c.RemoteAddr()], which is a nil
    dereference when the underlying listener returned no connection. *)

Definition stoppableListener_Accept : M (connValue * error) :=
  '(c, err) ← Listener_Accept;
  match err with
  | Some _ => mret (unwrapped c, err)
  | None =>
      match c with
      | None => panic "invalid memory address or nil pointer dereference"
      | Some h =>
          addr ← Conn_RemoteAddr h;
          log_Printf ("new connection from " +:+ addr);;
          wg_Add 1;;
          mret (SemConn h, err)
      end
  end.

(** *** [func (l *stoppableListener) waitForClose()]: the body of the
    goroutine, run once [initShutdown] is closed; the result of
    [l.Listener.Close()] is dropped. *)

Definition waitForClose_body : M unit :=
  log_Printf "Stopping listening for new connections";;
  _ ← Listener_Close;
  mret tt.

(** *** Close calls running concurrently

    A [Close] call is three steps, each atomic with respect to the shared
    state: the underlying close, the log line, and [wg.Done()].  A pool
    holds what is left of each call in flight; the scheduler runs the next
    step of any of them.  A panic in any goroutine ends the process. *)

Inductive atom : Type :=
  | AConnClose (h : handle)
  | ALogClosed (h : handle)
  | AWgDone.

Definition exec_atom (a : atom) : M unit :=
  match a with
  | AConnClose h => _ ← Conn_Close h; mret tt
  | ALogClosed h =>
      addr ← Conn_RemoteAddr h;
      log_Printf ("connection to " +:+ addr +:+ " closed")
  | AWgDone => wg_Done
  end.

Definition Close_atoms (h : handle) : list atom :=
  [AConnClose h; ALogClosed h; AWgDone].

Fixpoint run_atoms (l : list atom) : M unit :=
  match l with
  | [] => mret tt
  | a :: l' => exec_atom a;; run_atoms l'
  end.

Record pool : Type := Pool {
  threads : list (list atom);
  shared : world C L;
  crashed : option string
}.

Inductive pool_step : pool → pool → Prop :=
  | pool_run ts w i a rest w' :
      ts !! i = Some (a :: rest) →
      exec_atom a w = (Returned tt, w') →
      pool_step (Pool ts w None) (Pool (<[i:=rest]> ts) w' None)
  | pool_crash ts w i a rest msg w' :
      ts !! i = Some (a :: rest) →
      exec_atom a w = (Panicked msg, w') →
      pool_step (Pool ts w None) (Pool (<[i:=rest]> ts) w' (Some msg)).

Definition pool_of (hs : list handle) (w : world C L) : pool :=
  Pool (Close_atoms <$> hs) w None.

Definition finished (p : pool) : Prop := Forall (λ t, t = []) (threads p).

(** The calls of [wg.Done()] that the pool has yet to make, and the
    handles its steps use. *)
Definition owes (a : atom) : nat :=
  match a with
  | AWgDone => 1
  | _ => 0
  end.

Fixpoint owed (t : list atom) : nat :=
  match t with
  | [] => 0
  | a :: t' => owes a + owed t'
  end.

Fixpoint pending (ts : list (list atom)) : nat :=
  match ts with
  | [] => 0
  | t :: ts' => owed t + pending ts'
  end.

Definition atom_in (D : gset handle) (a : atom) : Prop :=
  match a with
  | AConnClose h | ALogClosed h => h ∈ D
  | AWgDone => True
  end.

(** What every state of a pool satisfies: the heap keeps its handles, every
    step left uses a handle of the heap, the counter less the decrements
    still owed is constant ([k]), and a crash is a negative counter. *)
Record pool_inv (D : gset handle) (k : Z) (p : pool) : Prop := {
  inv_dom : dom (conns (shared p)) = D;
  inv_atoms : Forall (Forall (atom_in D)) (threads p);
  inv_wg : crashed p = None → wg (shared p) - Z.of_nat (pending (threads p)) = k;
  inv_alive : 0 ≤ k → crashed p = None;
  inv_msg : ∀ msg, crashed p = Some msg → msg = "sync: negative WaitGroup counter"
}.

(** [k] calls of [Close] on one connection, one after the other. *)
Fixpoint Close_times (k : nat) (h : handle) : M unit :=
  match k with
  | O => mret tt
  | S k' => _ ← semConn_Close h; Close_times k' h
  end.

(** *** Connections in the hands of the server

    The caller of [Accept] holds the wrapped connections it was handed
    and closes each of them once.  A state pairs the handles it holds with
    the world; a step is a call of [Accept] that returns, or a call of
    [Close] that returns on a connection held. *)

Definition hand_over (c : connValue) (held : gset handle) : gset handle :=
  match c with
  | SemConn h => held ∪ {[h]}
  | _ => held
  end.

Inductive conn_step : gset handle * world C L → gset handle * world C L → Prop :=
  | conn_accept held w c err w' :
      stoppableListener_Accept w = (Returned (c, err), w') →
      conn_step (held, w) (hand_over c held, w')
  | conn_close held w h err w' :
      h ∈ held →
      semConn_Close h w = (Returned err, w') →
      conn_step (held, w) (held ∖ {[h]}, w').

(** Every connection object of the heap was allocated before [next]. *)
Definition heap_ok (w : world C L) : Prop :=
  ∀ h, h ∈ dom (conns w) → (h < next w)%nat.

Record held_inv (st : gset handle * world C L) : Prop := {
  hi_heap : heap_ok st.2;
  hi_held : st.1 ⊆ dom (conns st.2);
  hi_wg : wg st.2 = Z.of_nat (size st.1)
}.

(** [k] calls of [Accept], one after the other. *)
Fixpoint Accept_times (k : nat) : M (list (connValue * error)) :=
  match k with
  | O => mret []
  | S k' =>
      r ← stoppableListener_Accept;
      rs ← Accept_times k';
      mret (r :: rs)
  end.

End Wrappers.

Arguments pool : clear implicits.

(** ** A TCP implementation of the two interfaces

    The first [Close] of a connection returns what the network layer
    reports ([closeErr]); later ones fail.  A closed listener fails every
    [Accept]; an open one hands out its backlog, and with an empty backlog
    fails the way a listener with an expired accept deadline does. *)

Record tcpConn : Type := TcpConn {
  remote : string;
  closed : bool;
  closeErr : error
}.

Record tcpListener : Type := TcpListener {
  lclosed : bool;
  backlog : list tcpConn
}.

Definition errClosing : string := "use of closed network connection".

#[global] Instance tcpConn_NetConn : NetConn tcpConn := {|
  conn_Close c :=
    if closed c then (c, Some errClosing)
    else (TcpConn (remote c) true (closeErr c), closeErr c);
  conn_RemoteAddr := remote
|}.

#[global] Instance tcpListener_NetListener : NetListener tcpListener tcpConn := {|
  lis_Accept l :=
    if lclosed l then (l, (None, Some errClosing))
    else match backlog l with
         | c :: rest => (TcpListener false rest, (Some c, None))
         | [] => (l, (None, Some "i/o timeout"))
         end;
  lis_Close l :=
    if lclosed l then (l, Some errClosing)
    else (TcpListener true (backlog l), None)
|}.

Definition client (addr : string) : tcpConn := TcpConn addr false None.

Definition world0 (l : tcpListener) : world tcpConn tcpListener :=
  World 0 ∅ 0%nat l [].

(** Two clients accepted, none closed yet: handles [0] and [1], counter 2. *)
Definition two_accepted : world tcpConn tcpListener :=
  (stoppableListener_Accept
     (stoppableListener_Accept
        (world0 (TcpListener false [client "10.0.0.1:4711";
                                    client "10.0.0.2:4711"]))).2).2.

(** A connection whose close the network layer reports as failed, with
    the counter at one. *)
Definition broken_pipe : world tcpConn tcpListener :=
  World 1 {[0%nat := TcpConn "10.0.0.9:4711" false (Some "broken pipe")]} 1%nat
        (TcpListener true []) [].

(** The listener closed by the goroutine of [waitForClose] while a client
    is still in its backlog. *)
Definition closed_with_backlog : world tcpConn tcpListener :=
  (waitForClose_body (world0 (TcpListener false [client "10.0.0.3:4711"]))).2.

(** Two concurrent calls of [Close] on connection [0] of [two_accepted],
    after all their steps have run, interleaved. *)
Definition closed_twice : pool tcpConn tcpListener :=
  Pool [[]; []]
       (run_atoms [AConnClose 0%nat; AConnClose 0%nat;
                   ALogClosed 0%nat; ALogClosed 0%nat;
                   AWgDone; AWgDone] two_accepted).2
       None.

(** Two clients waiting in the backlog of an open listener, and the world
    after both were accepted and the first was closed. *)
Definition two_waiting : world tcpConn tcpListener :=
  world0 (TcpListener false [client "10.0.0.1:4711"; client "10.0.0.2:4711"]).

Definition one_left : world tcpConn tcpListener :=
  (semConn_Close 0%nat two_accepted).2.

(** ** The file watcher

    Package [fsnotify]: an event carries the file's name and a bit set of
    operations, [Create = 1 << iota] being the first. *)

Record Event : Type := mkEvent {
  Name : string;
  Op : Z
}.

Definition Create : Z := 1.
Definition Write : Z := 2.
Definition Remove : Z := 4.
Definition Rename : Z := 8.
Definition Chmod : Z := 16.

(** A channel of [struct{}] that is only ever closed. *)
Inductive chan : Type := Open | Closed.

Definition close (c : chan) : outcome chan :=
  match c with
  | Open => Returned Closed
  | Closed => Panicked "close of closed channel"
  end.

(** How the goroutine of [startWatcher] stands: in its loop, out of it
    (after [break Loop]), or the process ended by [log.Fatalf] or by a
    panic. *)
Inductive wstatus : Type :=
  | Watching
  | Stopped
  | Fatal (msg : string)
  | Crashed (msg : string).

#[global] Instance wstatus_eq_dec : EqDecision wstatus.
Proof. solve_decision. Defined.

Record watcher : Type := Watcher {
  newBin : chan;
  fsw_closed : bool;
  wlog : list string;
  status : wstatus
}.

(** The case the [select] takes in one iteration. *)
Inductive selected : Type :=
  | RecvEvent (evt : Event)
  | RecvError (err : string)
  | RecvStop.

Definition is_create (evt : Event) : bool :=
  Z.land (Op evt) Create =? Create.

(** One iteration of [for { select { ... } }]. *)
Definition watcher_iter (sel : selected) (st : watcher) : watcher :=
  match sel with
  | RecvEvent evt =>
      if is_create evt then
        let lg := wlog st ++ ["New binary found. Preparing to shutdown."] in
        match close (newBin st) with
        | Returned c => Watcher c (fsw_closed st) lg Watching
        | Panicked msg => Watcher (newBin st) (fsw_closed st) lg (Crashed msg)
        end
      else st
  | RecvError err =>
      let msg := "File watcher error occurred: " +:+ err in
      Watcher (newBin st) (fsw_closed st) (wlog st ++ [msg]) (Fatal msg)
  | RecvStop =>
      Watcher (newBin st) true (wlog st) Stopped
  end.

Fixpoint watcher_loop (sels : list selected) (st : watcher) : watcher :=
  match status st, sels with
  | Watching, sel :: rest => watcher_loop rest (watcher_iter sel st)
  | _, _ => st
  end.

(** An event delivered to the loop whose operation has no [Create] bit. *)
Definition non_create (sel : selected) : Prop :=
  ∃ evt, sel = RecvEvent evt ∧ Z.testbit (Op evt) 0 = false.

(** The state in which the goroutine is started: [newBin] freshly made. *)
Definition watcher0 : watcher := Watcher Open false [] Watching.

(** The number of times the loop executes [close(newBin)]. *)
Fixpoint close_calls (sels : list selected) (st : watcher) : nat :=
  match status st, sels with
  | Watching, sel :: rest =>
      ((match sel with
        | RecvEvent evt => if is_create evt then 1 else 0
        | _ => 0
        end) + close_calls rest (watcher_iter sel st))%nat
  | _, _ => 0%nat
  end.

(** ** The bounded wait for the clients

    [waitClients] starts a timer, starts a goroutine that waits for the
    counter and then closes [allClosed], and selects between the two.  The
    state below is what these three share; [elapsed] is the time since
    [time.After] was called, in the unit of [time.Duration]. *)

Inductive branch : Type := TimedOut | AllClosed.

Inductive waiter_pc : Type := InWait | AfterWait | Finished.

Record drain : Type := Drain {
  elapsed : Z;
  counter : Z;
  timeout : bool;
  waiter : waiter_pc;
  allClosed : chan;
  taken : option branch
}.

Definition drain0 (n : Z) : drain := Drain 0 n false InWait Open None.

(** The steps, in the order of the rules:
    - time passes;
    - the timer of [time.After(maxWait)] sends on [timeout], [maxWait]
      having elapsed (at once when [maxWait] is zero or less);
    - a connection still counted is closed, and its [Close] calls
      [wg.Done()];
    - [wg.Wait()] returns in the goroutine, the counter being zero;
    - the goroutine executes [close(allClosed)];
    - the [select] takes [case <-timeout], a value having been sent;
    - the [select] takes [case <-allClosed], the channel being closed.
    With several cases ready the [select] takes any of them.  Nothing
    moves after the [select]: one case ends the process, the other returns
    to [main], which returns. *)

Inductive drain_step (maxWait : Z) : drain → drain → Prop :=
  | step_tick dt t n f p c :
      0 < dt →
      drain_step maxWait (Drain t n f p c None) (Drain (t + dt) n f p c None)
  | step_timer t n p c :
      maxWait ≤ t →
      drain_step maxWait (Drain t n false p c None) (Drain t n true p c None)
  | step_Done t n f p c :
      0 < n →
      drain_step maxWait (Drain t n f p c None) (Drain t (n - 1) f p c None)
  | step_Wait t f c :
      drain_step maxWait (Drain t 0 f InWait c None) (Drain t 0 f AfterWait c None)
  | step_close t n f :
      drain_step maxWait (Drain t n f AfterWait Open None)
                         (Drain t n f Finished Closed None)
  | step_select_timeout t n p c :
      drain_step maxWait (Drain t n true p c None)
                         (Drain t n true p c (Some TimedOut))
  | step_select_allClosed t n f p :
      drain_step maxWait (Drain t n f p Closed None)
                         (Drain t n f p Closed (Some AllClosed)).

(** What holds in every state of the wait: time does not run backwards,
    the timer has fired only at or after the deadline, the waiting
    goroutine is past [wg.Wait()] only with the counter at zero, the
    channel is closed only by that goroutine, and the [select] has taken a
    case only when that case was ready. *)
Record drain_inv (maxWait : Z) (s : drain) : Prop := {
  di_elapsed : 0 ≤ elapsed s;
  di_timeout : timeout s = true → maxWait ≤ elapsed s;
  di_waiter : waiter s ≠ InWait → counter s = 0;
  di_closed : allClosed s = Closed → waiter s = Finished;
  di_timed_out : taken s = Some TimedOut → timeout s = true;
  di_all_closed : taken s = Some AllClosed → allClosed s = Closed
}.

(** Two more facts of every state of the wait that starts from a counter
    that is not negative: the counter stays so, and the goroutine is done
    only with the channel closed. *)
Definition drain_shape (s : drain) : Prop :=
  0 ≤ counter s ∧ (waiter s = Finished → allClosed s = Closed).

(** *** Timely runs

    [drain_step] leaves the scheduler free: a goroutine that could run may
    be kept waiting for any length of time.  The timely steps are those in
    which what can run is not kept waiting:
    - a [select] with a case ready takes a case next: the goroutine
      blocked in the [select] is woken by the very channel operation that
      makes the case ready;
    - time passes only while the goroutine of [wg.Wait()] has no step to
      take, and only up to the moment the timer is due. *)
Definition select_ready (s : drain) : Prop :=
  timeout s = true ∨ allClosed s = Closed.

Definition can_run (s : drain) : Prop :=
  (waiter s = InWait ∧ counter s = 0) ∨ waiter s = AfterWait.

Definition timely_step (maxWait : Z) (s s' : drain) : Prop :=
  drain_step maxWait s s'
  ∧ (select_ready s → taken s' ≠ None)
  ∧ (elapsed s ≠ elapsed s' → ¬ can_run s ∧ elapsed s' ≤ maxWait).

(** The steps between a state with the counter at zero and the return of
    [waitClients]: [wg.Wait()] returns, [close(allClosed)], the [select]. *)
Definition steps_left (s : drain) : nat :=
  match taken s, waiter s with
  | Some _, _ => 0
  | None, Finished => 1
  | None, AfterWait => 2
  | None, InWait => 3
  end.

(** The states of a wait whose counter came to zero at time [t0], before
    the deadline: no time passes any more, the timer has not fired, and
    the only case taken is [allClosed]. *)
Definition settled (t0 : Z) (s : drain) : Prop :=
  counter s = 0
  ∧ elapsed s = t0
  ∧ timeout s = false
  ∧ (waiter s = Finished ↔ allClosed s = Closed)
  ∧ (∀ b, taken s = Some b → b = AllClosed ∧ waiter s = Finished).

(** ** The process: [main] and what it calls

    A process-level action is something observable from outside or a
    hand-over to another goroutine.  [proc] is a writer of actions with
    early exit: [os.Exit] and [log.Fatalf] end the process on the spot. *)

Inductive goroutine : Type := GoWatcher | GoWaitForClose | GoWaitAll.

Record Server : Type := mkServer {
  ReadTimeout : Z;
  WriteTimeout : Z;
  MaxHeaderBytes : Z
}.

Inductive action : Type :=
  | Println (s : string)
  | Log (s : string)
  | LogServer (s : Server)
  | Listen (network addr : string)
  | NewWatcher
  | WatcherAdd (dir : string) (err : error)
  | Go (g : goroutine)
  | HandleFunc (pattern : string)
  | Serve
  | CloseStopWatcher
  | TimeAfter (d : Z)
  | Select (b : branch).

Inductive result (A : Type) : Type :=
  | Done (a : A)
  | Exit (code : Z).
Arguments Done {A} a.
Arguments Exit {A} code.

Definition proc (A : Type) : Type := list action * result A.

#[global] Instance proc_ret : MRet proc := λ A a, ([], Done a).
#[global] Instance proc_bind : MBind proc := λ A B k m,
  match m with
  | (t, Done a) => let '(t', r) := k a in (t ++ t', r)
  | (t, Exit c) => (t, Exit c)
  end.

Definition act (a : action) : proc unit := ([a], Done tt).
Definition os_Exit {A} (code : Z) : proc A := ([], Exit code).
Definition log_Println (s : string) : proc unit := act (Log s).
Definition log_Fatalf {A} (s : string) : proc A := act (Log s);; os_Exit 1.

(** The exit status of the process as the program gives it: [0] when
    [main] returns, the argument of [os.Exit] otherwise.  A parent that
    waits for the process on a Unix system reads the low eight bits of
    it, [parent_status]: 255 for [os.Exit(-1)]. *)
Definition exit_status (p : proc unit) : Z :=
  match p.2 with
  | Done _ => 0
  | Exit c => c
  end.

Definition parent_status (p : proc unit) : Z := exit_status p `mod` 256.

(** What the environment decides: the command line after [flag.Parse],
    the results of the library calls that can fail, and the case that the
    [select] of [waitClients] takes. *)
Record env : Type := Env {
  args : list string;
  opt_maxWait : option Z;
  opt_port : option Z;
  listen_err : error;
  newWatcher_err : error;
  add_err : error;
  drained : branch
}.

(** [init]: the defaults of the two flags. *)
Definition config_port (e : env) : Z := default 8000 (opt_port e).
Definition config_maxWait (e : env) : Z := default 30 (opt_maxWait e).

(** [time.Duration] is an [int64]; the product wraps around. *)
Definition wrap64 (z : Z) : Z := (z + 2 ^ 63) `mod` 2 ^ 64 - 2 ^ 63.
Definition Second : Z := 1000000000.

Definition printUsage {A} : proc A :=
  act (Println "Usage: go-azure-website <dir_to_watch>");;
  os_Exit 0.

Definition showFlags (name : string) (value : Z) : proc unit :=
  log_Println ("Flag set: " +:+ name +:+ "=" +:+ pretty value).

(** [flag.Visit] goes through the flags that were set, in the order of
    their names. *)
Definition flag_Visit (e : env) : proc unit :=
  match opt_maxWait e with Some v => showFlags "maxWait" v | None => mret tt end;;
  match opt_port e with Some v => showFlags "port" v | None => mret tt end.

(** [func startWatcher() synchronization]: the two channels are made, the
    goroutine with the loop is started, and then the directory is added
    to the watcher, the result of [w.Add] not being looked at. *)
Definition startWatcher (e : env) (watchDir : string) : proc unit :=
  act NewWatcher;;
  match newWatcher_err e with
  | Some err => log_Fatalf ("Could not create watcher: " +:+ err)
  | None => mret tt
  end;;
  act (Go GoWatcher);;
  act (WatcherAdd watchDir (add_err e)).

Definition defineHandlers : proc unit := act (HandleFunc "/").

(** [func waitClients(maxWait time.Duration)]; [b] is the case its
    [select] takes. *)
Definition waitClients (b : branch) (maxWait : Z) : proc unit :=
  act (TimeAfter maxWait);;
  act (Go GoWaitAll);;
  act (Select b);;
  match b with
  | TimedOut =>
      log_Println "Maximum wait time exceeding. Terminating.";;
      os_Exit (-1)
  | AllClosed =>
      log_Println "All connection closed. Shutting down."
  end.

(** [func main()], from after [flag.Parse()].  [s.Serve(sl)] returns when
    [Accept] fails, that is, once the listener has been closed; what
    follows [Serve] in the trace is what [main] does from there on.  A
    process whose listener is never closed stays in [Serve], and one in
    which a goroutine panics ends there: neither is a run of [main] to its
    end. *)
Definition main (e : env) : proc unit :=
  (if (length (args e) <? 1)%nat then printUsage else mret tt);;
  let watchDir := default "" (head (args e)) in
  flag_Visit e;;
  act (Listen "tcp4" (":" +:+ pretty (config_port e)));;
  match listen_err e with
  | Some err => log_Fatalf ("Could not create listener: " +:+ err)
  | None => mret tt
  end;;
  log_Println "Starting watcher";;
  startWatcher e watchDir;;
  act (Go GoWaitForClose);;
  defineHandlers;;
  act (LogServer (mkServer (15 * Second) (15 * Second) (1 ≪ 20)));;
  act Serve;;
  log_Println "Stopping watching";;
  act CloseStopWatcher;;
  log_Println ("Waiting for existing clients for upto "
               +:+ pretty (config_maxWait e) +:+ " seconds");;
  waitClients (drained e) (wrap64 (wrap64 (config_maxWait e) * Second)).

(** Command lines: [-maxWait 2 dir] with all clients gone in time (the
    counter starting at three); [dir] alone where [dir] cannot be watched;
    no argument at all. *)
Definition all_closed_in_time : env :=
  Env ["_target"] (Some 2) None None None None AllClosed.

Definition three_closed : drain := Drain 0 0 false Finished Closed (Some AllClosed).




Definition unwatchable_dir : env :=
  Env ["_targte"] None None None None
      (Some "The system cannot find the file specified.") AllClosed.

Definition no_argument : env := Env [] None None None None None AllClosed.

(** What [main] ends with when the listener or the watcher cannot be
    created, the first failure being the one that counts. *)
Definition fatal_message (e : env) : string :=
  match listen_err e, newWatcher_err e with
  | Some err, _ => "Could not create listener: " +:+ err
  | None, Some err => "Could not create watcher: " +:+ err
  | None, None => ""
  end.

(** [-port 80 dir] with the port taken by another process. *)
Definition port_in_use : env :=
  Env ["_target"] None (Some 80)
      (Some "listen tcp4 :80: bind: address already in use") None None AllClosed.

(** ** The request handler

    A [http.ResponseWriter] as the server hands it to a handler: the header
    map, and what has been sent. *)

Record Request : Type := mkRequest {
  Method : string;
  Path : string;
  ReqHeader : gmap string (list string);
  ReqBody : string
}.

Record ResponseWriter : Type := mkResponse {
  header : gmap string (list string);
  wroteHeader : bool;
  statusCode : Z;
  sentHeader : gmap string (list string);
  body : string
}.

Definition newResponse : ResponseWriter := mkResponse ∅ false 0 ∅ "".

Definition StatusOK : Z := 200.

(** [Header.Add]: append to the values of the key (the key used here is
    already in canonical form). *)
Definition Header_Add (key value : string) (h : gmap string (list string))
  : gmap string (list string) :=
  <[key := default [] (h !! key) ++ [value]]> h.

Definition Header_Get (key : string) (h : gmap string (list string)) : string :=
  default "" (head (default [] (h !! key))).

(** [WriteHeader] sends the status line and the header as it stands; a
    second call changes nothing. *)
Definition WriteHeader (code : Z) (w : ResponseWriter) : ResponseWriter :=
  if wroteHeader w then w
  else mkResponse (header w) true code (header w) (body w).

(** [Write] sends the header with status 200 if it was not sent before. *)
Definition Write_ (data : string) (w : ResponseWriter) : ResponseWriter :=
  let w' := if wroteHeader w then w else WriteHeader StatusOK w in
  mkResponse (header w') (wroteHeader w') (statusCode w') (sentHeader w')
             (body w' +:+ data).

Definition Fprint (w : ResponseWriter) (a : string) : ResponseWriter :=
  Write_ a w.

(** The body, [{"message": "Hello from Azure Websites!"}]; [dq] is the
    double-quote character. *)
Definition dq : string := String (Ascii.ascii_of_nat 34) "".

Definition hello : string :=
  "{" +:+ dq +:+ "message" +:+ dq +:+ ": "
  +:+ dq +:+ "Hello from Azure Websites!" +:+ dq +:+ "}".

Definition rootHandler (w : ResponseWriter) (r : Request) : ResponseWriter :=
  let w1 := mkResponse (Header_Add "Content-Type" "application/json" (header w))
                       (wroteHeader w) (statusCode w) (sentHeader w) (body w) in
  let w2 := WriteHeader StatusOK w1 in
  Fprint w2 hello.


(** ** The deployment script: the name of the artifact

    [deploy.sh] names the build after the site and the first ten
    characters of the commit, and later removes the older builds of the
    site from the directory of the new one.  The values below are those of
    the shell variables of the same names; [strip c s] is the parameter
    expansion [${s%c*}], which removes the shortest suffix that starts
    with [c], and nothing when [c] does not occur. *)

Fixpoint contains (c : Ascii.ascii) (s : string) : bool :=
  match s with
  | EmptyString => false
  | String a s' => if Ascii.eqb a c then true else contains c s'
  end.

Fixpoint strip (c : Ascii.ascii) (s : string) : string :=
  match s with
  | EmptyString => EmptyString
  | String a s' =>
      if Ascii.eqb a c && negb (contains c s') then EmptyString
      else String a (strip c s')
  end.

(** The characters [-] and [/]. *)
Definition hyphen : Ascii.ascii := Ascii.ascii_of_nat 45.
Definition slash : Ascii.ascii := Ascii.ascii_of_nat 47.

(** [DEPLOYMENT_ID=${SCM_COMMIT_ID:0:10}] *)
Definition DEPLOYMENT_ID (SCM_COMMIT_ID : string) : string :=
  String.substring 0 10 SCM_COMMIT_ID.

(** [ARTIFACT_NAME=$WEBSITE_SITE_NAME-$DEPLOYMENT_ID.exe] *)
Definition ARTIFACT_NAME (WEBSITE_SITE_NAME SCM_COMMIT_ID : string) : string :=
  WEBSITE_SITE_NAME +:+ "-" +:+ DEPLOYMENT_ID SCM_COMMIT_ID +:+ ".exe".

(** [TARGET_ARTIFACT=$DEPLOYMENT_SOURCE/_target/$ARTIFACT_NAME] *)
Definition TARGET_ARTIFACT
    (DEPLOYMENT_SOURCE WEBSITE_SITE_NAME SCM_COMMIT_ID : string) : string :=
  DEPLOYMENT_SOURCE +:+ "/_target/"
  +:+ ARTIFACT_NAME WEBSITE_SITE_NAME SCM_COMMIT_ID.

(** The values of the two parameter expansions in the words of the
    [find] command: [${TARGET_ARTIFACT%/*}] and [${ARTIFACT_NAME%-*}].  The
    words are not quoted, so that what [find] is given is what word
    splitting and pathname expansion make of them; that is not modelled
    here. *)
Definition find_dir
    (DEPLOYMENT_SOURCE WEBSITE_SITE_NAME SCM_COMMIT_ID : string) : string :=
  strip slash (TARGET_ARTIFACT DEPLOYMENT_SOURCE WEBSITE_SITE_NAME SCM_COMMIT_ID).

Definition name_prefix (WEBSITE_SITE_NAME SCM_COMMIT_ID : string) : string :=
  strip hyphen (ARTIFACT_NAME WEBSITE_SITE_NAME SCM_COMMIT_ID).

(** * Properties *)

(** ** The connection wrappers *)

Section WrapperFacts.
Context {C L : Type} `{!NetConn C} `{!NetListener L C}.
Implicit Types (w : world C L) (h : handle) (p : pool C L).

Ltac unfold_M :=
  unfold mbind, mret, M_bind, M_ret, bind, ret, panic, log_Printf, emit,
    wg_Done, wg_Add in *.

Lemma Conn_Close_Some w h c :
  conns w !! h = Some c →
  Conn_Close h w =
    (Returned (conn_Close c).2,
     World (wg w) (<[h:=(conn_Close c).1]> (conns w)) (next w) (listener w)
           (trace w ++ [EConnClose h (conn_Close c).2])).
Proof.
  intros Hc. unfold Conn_Close. rewrite Hc. by destruct (conn_Close c).
Qed.

Lemma semConn_Close_unfold w h c :
  conns w !! h = Some c →
  semConn_Close h w =
    (if wg w - 1 <? 0
     then Panicked "sync: negative WaitGroup counter"
     else Returned (conn_Close c).2,
     World (wg w - 1) (<[h:=(conn_Close c).1]> (conns w)) (next w) (listener w)
           (trace w ++ [EConnClose h (conn_Close c).2;
                        ELog ("connection to "
                              +:+ conn_RemoteAddr (conn_Close c).1 +:+ " closed");
                        EWgAdd (-1)])).
Proof.
  intros Hc. unfold semConn_Close. unfold_M.
  rewrite (Conn_Close_Some _ _ _ Hc). unfold Conn_RemoteAddr. simpl.
  rewrite lookup_insert_eq. simpl.
  rewrite <- !app_assoc. simpl.
  replace (wg w + -1) with (wg w - 1) by lia.
  by destruct (wg w - 1 <? 0).
Qed.

(** [Close] is its three steps run in order. *)
Lemma semConn_Close_as_atoms w h :
  (semConn_Close h w).2 = (run_atoms (Close_atoms h) w).2
  ∧ (∀ msg, (semConn_Close h w).1 = Panicked msg
            ↔ (run_atoms (Close_atoms h) w).1 = Panicked msg).
Proof.
  unfold semConn_Close, run_atoms, Close_atoms, exec_atom. unfold_M.
  destruct (Conn_Close h w) as [[err|msg'] w1];
    [|split; [reflexivity|intros msg; simpl; split; congruence]].
  destruct (Conn_RemoteAddr h w1) as [[addr|msg'] w2];
    [|split; [reflexivity|intros msg; simpl; split; congruence]].
  simpl. destruct (wg w2 + -1 <? 0); simpl.
  - split; [reflexivity|intros msg; split; congruence].
  - split; [reflexivity|intros msg; split; discriminate].
Qed.

(** C7. [Close] on a tracked connection closes the underlying connection
    first, then logs, then calls [wg.Done()], whatever the underlying close
    returned; the counter goes down by one; and the call returns the result
    of the underlying close (the counter of a tracked connection being
    positive, [Done] does not panic). *)
Theorem semConn_Close_then_Done w h c :
  conns w !! h = Some c →
  let err := (conn_Close c).2 in
  let r := semConn_Close h w in
  trace r.2 = trace w ++ [EConnClose h err;
                          ELog ("connection to "
                                +:+ conn_RemoteAddr (conn_Close c).1 +:+ " closed");
                          EWgAdd (-1)]
  ∧ wg r.2 = wg w - 1
  ∧ (0 < wg w → r.1 = Returned err).
Proof.
  intros Hc err r. subst r. rewrite (semConn_Close_unfold _ _ _ Hc). simpl.
  split_and!; [done..|].
  intros Hpos. by rewrite (proj2 (Z.ltb_ge _ _)) by lia.
Qed.

(** When the counter is already zero the decrement panics instead. *)
Lemma semConn_Close_negative w h c :
  conns w !! h = Some c →
  wg w ≤ 0 →
  (semConn_Close h w).1 = Panicked "sync: negative WaitGroup counter".
Proof.
  intros Hc Hle. rewrite (semConn_Close_unfold _ _ _ Hc). simpl.
  by rewrite (proj2 (Z.ltb_lt _ _)) by lia.
Qed.

Lemma Listener_Accept_unfold w :
  Listener_Accept w =
    let r := lis_Accept (listener w) in
    match r.2.1 with
    | Some c =>
        (Returned (Some (next w), r.2.2),
         World (wg w) (<[next w:=c]> (conns w)) (S (next w)) r.1
               (trace w ++ [EListenerAccept r.2.2]))
    | None =>
        (Returned (None, r.2.2),
         World (wg w) (conns w) (next w) r.1
               (trace w ++ [EListenerAccept r.2.2]))
    end.
Proof.
  unfold Listener_Accept. by destruct (lis_Accept (listener w)) as [l' [[c|] err]].
Qed.

(** C6. When the underlying [Accept] fails, as it does on a closed
    listener, [Accept] returns exactly what the underlying call returned:
    the same error, the connection value not wrapped in a [semConn], and
    the world as the underlying call left it, so the counter is not
    touched. *)
Theorem stoppableListener_Accept_failure w l' oc e :
  lis_Accept (listener w) = (l', (oc, Some e)) →
  ∃ c w',
    Listener_Accept w = (Returned (c, Some e), w')
    ∧ stoppableListener_Accept w = (Returned (unwrapped c, Some e), w')
    ∧ (∀ h, unwrapped c ≠ SemConn h)
    ∧ wg w' = wg w
    ∧ trace w' = trace w ++ [EListenerAccept (Some e)].
Proof.
  intros Hacc.
  pose proof (Listener_Accept_unfold w) as Hu. rewrite Hacc in Hu. simpl in Hu.
  unfold stoppableListener_Accept. unfold_M.
  destruct oc as [c|]; rewrite Hu; simpl;
    eexists _, _; (split_and!; [reflexivity|reflexivity| |done|done]);
    intros h; discriminate.
Qed.

(** On success the connection is wrapped and counted. *)
Lemma stoppableListener_Accept_success w l' c :
  lis_Accept (listener w) = (l', (Some c, None)) →
  0 ≤ wg w →
  stoppableListener_Accept w =
    (Returned (SemConn (next w), None),
     World (wg w + 1) (<[next w:=c]> (conns w)) (S (next w)) l'
           (trace w ++ [EListenerAccept None;
                        ELog ("new connection from " +:+ conn_RemoteAddr c);
                        EWgAdd 1])).
Proof.
  intros Hacc Hpos.
  pose proof (Listener_Accept_unfold w) as Hu. rewrite Hacc in Hu. simpl in Hu.
  unfold stoppableListener_Accept. unfold_M. rewrite Hu. simpl.
  unfold Conn_RemoteAddr. simpl. rewrite lookup_insert_eq. simpl.
  rewrite (proj2 (Z.ltb_ge _ _)) by lia.
  by rewrite <- !app_assoc.
Qed.

(** *** Concurrent and repeated [Close] *)

Lemma exec_atom_effect a w r w' :
  atom_in (dom (conns w)) a →
  exec_atom a w = (r, w') →
  dom (conns w') = dom (conns w)
  ∧ wg w' = wg w - Z.of_nat (owes a)
  ∧ (∀ msg, r = Panicked msg →
       a = AWgDone ∧ wg w ≤ 0 ∧ msg = "sync: negative WaitGroup counter").
Proof.
  destruct a as [h|h|]; simpl; unfold_M.
  - intros [c Hc]%elem_of_dom. rewrite (Conn_Close_Some _ _ _ Hc).
    intros Heq. injection Heq as <- <-. simpl. split_and!; [|lia|done].
    apply dom_insert_lookup_L. by eexists.
  - intros [c Hc]%elem_of_dom. unfold Conn_RemoteAddr. rewrite Hc.
    intros [= <- <-]. simpl. split_and!; [done|lia|done].
  - intros _. destruct (wg w + -1 <? 0) eqn:Hneg; intros [= <- <-]; simpl.
    + apply Z.ltb_lt in Hneg. split_and!; [done|lia|].
      intros msg [= <-]. split_and!; [done|lia|done].
    + split_and!; [done|lia|done].
Qed.

Lemma pending_insert ts (i : nat) a rest :
  ts !! i = Some (a :: rest) →
  pending ts = (owes a + pending (<[i:=rest]> ts))%nat.
Proof.
  revert i. induction ts as [|t ts IH]; intros [|i]; simpl; try done.
  - intros [= Ht]. subst t. simpl. lia.
  - intros Hi. rewrite (IH _ Hi). lia.
Qed.

Lemma pending_finished ts : Forall (λ t, t = []) ts → pending ts = 0%nat.
Proof.
  induction 1 as [|t ts Ht _ IH]; [done|]. subst t. simpl. by rewrite IH.
Qed.

Lemma pending_Close_atoms hs : pending (Close_atoms <$> hs) = length hs.
Proof.
  induction hs as [|h hs IH]; [done|]. rewrite fmap_cons. simpl. by rewrite IH.
Qed.

Lemma pool_inv_step D k p p' :
  pool_inv D k p → pool_step p p' → pool_inv D k p'.
Proof.
  intros [Hdom Hat Hwg Hal Hmsg] Hstep.
  destruct Hstep as [ts w i a rest w' Hi Hex|ts w i a rest msg w' Hi Hex];
    simpl in *.
  all: pose proof (Forall_lookup_1 _ _ _ _ Hat Hi) as Hthr.
  all: apply Forall_cons in Hthr as [Ha Hrest].
  all: rewrite <- Hdom in Ha.
  all: destruct (exec_atom_effect _ _ _ _ Ha Hex) as (Hd & Hw & Hp).
  all: specialize (Hwg eq_refl); rewrite (pending_insert _ _ _ _ Hi) in Hwg.
  - split; simpl; [congruence|by apply Forall_insert|intros _; lia|done|done].
  - destruct (Hp msg eq_refl) as (-> & Hle & ->). simpl in *.
    split; simpl; [congruence|by apply Forall_insert|done| |by intros ? [= <-]].
    intros Hk. lia.
Qed.

Lemma pool_inv_rtc D k p p' :
  pool_inv D k p → rtc pool_step p p' → pool_inv D k p'.
Proof. intros Hinv Hrtc. induction Hrtc; eauto using pool_inv_step. Qed.

Lemma pool_inv_init w hs :
  (∀ h, h ∈ hs → is_Some (conns w !! h)) →
  pool_inv (dom (conns w)) (wg w - Z.of_nat (length hs)) (pool_of hs w).
Proof.
  intros Hhs. split; simpl; [done| |by rewrite pending_Close_atoms|done|done].
  apply Forall_fmap, Forall_forall. intros h Hh. specialize (Hhs h Hh).
  apply elem_of_dom in Hhs. unfold Close_atoms, compose.
  repeat (apply Forall_cons; split; [done|]). apply Forall_nil_2.
Qed.

(** A pool that has not crashed and is not finished can take a step. *)
Lemma pool_progress p :
  crashed p = None → ¬ finished p → ∃ p', pool_step p p'.
Proof.
  destruct p as [ts w cr]. simpl. intros -> Hnf.
  apply not_Forall_Exists in Hnf;
    [|intros [|a t]; unfold Decision; [left|right]; done].
  apply Exists_exists in Hnf as (t & Hin & Hne).
  apply list_elem_of_lookup in Hin as [i Hi].
  destruct t as [|a rest]; [by destruct Hne|].
  destruct (exec_atom a w) as [[[]|msg] w'] eqn:Hex.
  - eexists. by eapply pool_run.
  - eexists. by eapply pool_crash.
Qed.

(** C1, as the code has it.  Every [Close] call makes its own [wg.Done()],
    whether or not the connection was closed before: however the steps of
    any number of calls are interleaved, and whether or not several of them
    are on one connection, once all have run the counter is down by the
    number of calls.  As long as there are no more calls than the counter
    holds, no step panics and the counter stays non-negative; the only
    panic possible is that of a decrement below zero, which takes more
    calls than the counter holds. *)
Theorem Close_decrements_per_call w hs p :
  (∀ h, h ∈ hs → is_Some (conns w !! h)) →
  rtc pool_step (pool_of hs w) p →
  (crashed p = None → finished p →
     wg (shared p) = wg w - Z.of_nat (length hs))
  ∧ (Z.of_nat (length hs) ≤ wg w → crashed p = None ∧ 0 ≤ wg (shared p))
  ∧ (∀ msg, crashed p = Some msg →
       msg = "sync: negative WaitGroup counter" ∧ wg w < Z.of_nat (length hs)).
Proof.
  intros Hhs Hrtc.
  pose proof (pool_inv_rtc _ _ _ _ (pool_inv_init w hs Hhs) Hrtc)
    as [Hdom Hat Hwg Hal Hmsg].
  split_and!.
  - intros Hc Hfin. specialize (Hwg Hc).
    rewrite (pending_finished _ Hfin) in Hwg. lia.
  - intros Hle. assert (crashed p = None) as Hc by (apply Hal; lia).
    specialize (Hwg Hc). split; [done|lia].
  - intros msg Hc. split; [by apply Hmsg|].
    destruct (decide (0 ≤ wg w - Z.of_nat (length hs))) as [Hk|Hk]; [|lia].
    rewrite (Hal Hk) in Hc. done.
Qed.

(** The same, for [k] calls one after the other on one connection. *)
Lemma Close_times_decrements k : ∀ w h,
  is_Some (conns w !! h) →
  Z.of_nat k ≤ wg w →
  ∃ w', Close_times k h w = (Returned tt, w')
        ∧ wg w' = wg w - Z.of_nat k
        ∧ is_Some (conns w' !! h).
Proof.
  induction k as [|k IH]; intros w h [c Hc] Hle; simpl.
  - exists w. split_and!; [done|lia|by eexists].
  - unfold mbind at 1, M_bind, bind.
    rewrite (semConn_Close_unfold _ _ _ Hc).
    rewrite (proj2 (Z.ltb_ge _ _)) by lia.
    edestruct (IH (World (wg w - 1) (<[h:=(conn_Close c).1]> (conns w)) (next w)
                         (listener w)
                         (trace w ++ [EConnClose h (conn_Close c).2;
                            ELog ("connection to "
                                  +:+ conn_RemoteAddr (conn_Close c).1 +:+ " closed");
                            EWgAdd (-1)])) h)
      as (w' & Hrun & Hwg & Hin); simpl.
    + rewrite lookup_insert_eq. by eexists.
    + lia.
    + exists w'. simpl in *. split_and!; [done|lia|done].
Qed.

(** *** [Accept] and [Close] together *)

Lemma stoppableListener_Accept_cases w :
  0 ≤ wg w →
  stoppableListener_Accept w =
    let r := lis_Accept (listener w) in
    match r.2 with
    | (Some c, None) =>
        (Returned (SemConn (next w), None),
         World (wg w + 1) (<[next w:=c]> (conns w)) (S (next w)) r.1
               (trace w ++ [EListenerAccept None;
                            ELog ("new connection from " +:+ conn_RemoteAddr c);
                            EWgAdd 1]))
    | (None, None) =>
        (Panicked "invalid memory address or nil pointer dereference",
         World (wg w) (conns w) (next w) r.1 (trace w ++ [EListenerAccept None]))
    | (Some c, Some e) =>
        (Returned (RawConn (next w), Some e),
         World (wg w) (<[next w:=c]> (conns w)) (S (next w)) r.1
               (trace w ++ [EListenerAccept (Some e)]))
    | (None, Some e) =>
        (Returned (NilConn, Some e),
         World (wg w) (conns w) (next w) r.1
               (trace w ++ [EListenerAccept (Some e)]))
    end.
Proof.
  intros Hpos. destruct (lis_Accept (listener w)) as [l' [[c|] [e|]]] eqn:Hacc;
    simpl.
  - unfold stoppableListener_Accept. unfold_M.
    rewrite Listener_Accept_unfold, Hacc. done.
  - by eapply stoppableListener_Accept_success.
  - unfold stoppableListener_Accept. unfold_M.
    rewrite Listener_Accept_unfold, Hacc. done.
  - unfold stoppableListener_Accept. unfold_M.
    rewrite Listener_Accept_unfold, Hacc. done.
Qed.

(** [Accept] adds one to the counter exactly when it hands a wrapped
    connection to its caller: then the connection is the one the
    underlying listener returned, stored under a handle not used before.
    In every other case, an error passed on or the panic on a [nil]
    connection without error, the counter is as it was and nothing wrapped
    is returned. *)
Theorem Accept_counts_what_it_wraps w :
  0 ≤ wg w →
  heap_ok w →
  (∃ c, (lis_Accept (listener w)).2 = (Some c, None)
        ∧ (stoppableListener_Accept w).1 = Returned (SemConn (next w), None)
        ∧ wg (stoppableListener_Accept w).2 = wg w + 1
        ∧ conns w !! next w = None
        ∧ conns (stoppableListener_Accept w).2 !! next w = Some c)
  ∨ (wg (stoppableListener_Accept w).2 = wg w
     ∧ ∀ h err, (stoppableListener_Accept w).1 ≠ Returned (SemConn h, err)).
Proof.
  intros Hpos Hheap. rewrite (stoppableListener_Accept_cases _ Hpos).
  destruct (lis_Accept (listener w)) as [l' [[c|] [e|]]]; simpl.
  - right. split; [done|]. intros h err. discriminate.
  - left. exists c. split_and!; [done..| |by rewrite lookup_insert_eq].
    apply not_elem_of_dom. intros Hin. specialize (Hheap _ Hin). lia.
  - right. split; [done|]. intros h err. discriminate.
  - right. split; [done|]. intros h err. discriminate.
Qed.

Lemma heap_ok_Accept w r w' :
  0 ≤ wg w → heap_ok w →
  stoppableListener_Accept w = (r, w') →
  heap_ok w' ∧ dom (conns w) ⊆ dom (conns w').
Proof.
  intros Hpos Hheap. rewrite (stoppableListener_Accept_cases _ Hpos).
  unfold heap_ok in *.
  destruct (lis_Accept (listener w)) as [l' [[c|] [e|]]]; simpl;
    intros [= <- <-]; simpl; (split; [|set_solver]).
  all: try (intros h Hin; specialize (Hheap h Hin); lia).
  all: intros h Hin; rewrite dom_insert_L in Hin;
    apply elem_of_union in Hin as [Hin%elem_of_singleton|Hin];
    [lia|specialize (Hheap h Hin); lia].
Qed.

Lemma held_inv_step st st' :
  held_inv st → conn_step st st' → held_inv st'.
Proof.
  intros [Hheap Hheld Hwg] Hstep.
  destruct Hstep as [held w c err w' Hacc|held w h err w' Hin Hcl]; simpl in *.
  - assert (0 ≤ wg w) as Hpos by lia.
    destruct (heap_ok_Accept _ _ _ Hpos Hheap Hacc) as [Hheap' Hsub].
    rewrite (stoppableListener_Accept_cases _ Hpos) in Hacc.
    destruct (lis_Accept (listener w)) as [l' [[c0|] [e|]]]; simpl in Hacc;
      try discriminate Hacc; injection Hacc as <- <- <-; simpl in *.
    + split; simpl; [done|set_solver|done].
    + assert (next w ∉ held) as Hfresh.
      { intros Hn. apply Hheld in Hn. specialize (Hheap _ Hn). lia. }
      split; simpl; [done| |].
      * rewrite dom_insert_L, (union_comm_L held). by apply union_mono.
      * rewrite size_union by by apply disjoint_singleton_r.
        rewrite size_singleton. lia.
    + split; simpl; [done|set_solver|done].
  - pose proof (Hheld _ Hin) as [c Hc]%elem_of_dom.
    rewrite (semConn_Close_unfold _ _ _ Hc) in Hcl.
    assert (size held ≠ 0%nat) as Hne.
    { intros Hz. apply size_empty_inv in Hz. set_solver. }
    injection Hcl as _ <-. split; simpl.
    + intros h' Hh'. simpl in Hh'. apply Hheap.
      by rewrite dom_insert_lookup_L in Hh' by by eexists.
    + rewrite dom_insert_lookup_L by by eexists.
      by apply subseteq_difference_l.
    + rewrite size_difference by by apply singleton_subseteq_l.
      rewrite size_singleton. lia.
Qed.

Lemma held_inv_rtc st st' :
  held_inv st → rtc conn_step st st' → held_inv st'.
Proof. intros Hinv Hrtc. induction Hrtc; eauto using held_inv_step. Qed.

(** From a counter of zero, whatever the listener and the connections do
    and in whatever order the server accepts and closes, as long as it
    closes only connections it holds: the counter is the number of
    connections held, so it is zero exactly when all that were handed out
    have been closed; and [Close] on a connection held returns the result
    of the underlying close without panic. *)
Theorem counter_counts_held w held w' :
  wg w = 0 →
  heap_ok w →
  rtc conn_step (∅, w) (held, w') →
  wg w' = Z.of_nat (size held)
  ∧ (wg w' = 0 ↔ held = ∅)
  ∧ (∀ h, h ∈ held →
       ∃ c, conns w' !! h = Some c
            ∧ (semConn_Close h w').1 = Returned (conn_Close c).2
            ∧ wg (semConn_Close h w').2 = wg w' - 1).
Proof.
  intros Hz Hheap Hrtc.
  assert (held_inv (∅, w)) as Hinit.
  { split; simpl; [done|apply empty_subseteq|by rewrite Hz].  }
  destruct (held_inv_rtc _ _ Hinit Hrtc) as [Hh Hheld Hwg]. simpl in *.
  split_and!; [done| |].
  - rewrite Hwg. split.
    + intros Hs. apply leibniz_equiv, size_empty_inv. lia.
    + intros ->. by rewrite size_empty.
  - intros h Hin. pose proof (Hheld _ Hin) as [c Hc]%elem_of_dom.
    exists c. rewrite (semConn_Close_unfold _ _ _ Hc). simpl.
    assert (size held ≠ 0%nat) as Hne.
    { intros Hs. apply size_empty_inv in Hs. set_solver. }
    split_and!; [done| |done].
    by rewrite (proj2 (Z.ltb_ge _ _)) by lia.
Qed.

End WrapperFacts.

(** *** On the TCP implementation *)

Lemma tcp_closed_Accept (w : world tcpConn tcpListener) :
  lclosed (listener w) = true →
  stoppableListener_Accept w =
    (Returned (NilConn, Some errClosing),
     World (wg w) (conns w) (next w) (listener w)
           (trace w ++ [EListenerAccept (Some errClosing)])).
Proof.
  intros Hcl. unfold stoppableListener_Accept, Listener_Accept.
  unfold mbind, M_bind, bind. simpl. by rewrite Hcl.
Qed.

Lemma waitForClose_closes (w : world tcpConn tcpListener) :
  lclosed (listener (waitForClose_body w).2) = true.
Proof.
  unfold waitForClose_body, Listener_Close, log_Printf, emit.
  unfold mbind, mret, M_bind, M_ret, bind, ret. simpl.
  by destruct (lclosed (listener w)) eqn:Hcl; simpl.
Qed.

Lemma stoppableListener_Accept_failure_witness :
  lis_Accept (listener closed_with_backlog)
    = (TcpListener true [client "10.0.0.3:4711"], (None, Some errClosing))
  ∧ ∃ c w',
      Listener_Accept closed_with_backlog = (Returned (c, Some errClosing), w')
      ∧ stoppableListener_Accept closed_with_backlog
          = (Returned (unwrapped c, Some errClosing), w')
      ∧ (∀ h, unwrapped c ≠ SemConn h)
      ∧ wg w' = wg closed_with_backlog
      ∧ trace w' = trace closed_with_backlog ++ [EListenerAccept (Some errClosing)].
Proof.
  split; [reflexivity|].
  exact (stoppableListener_Accept_failure closed_with_backlog
           (TcpListener true [client "10.0.0.3:4711"]) None errClosing eq_refl).
Defined.

Lemma semConn_Close_then_Done_witness :
  conns broken_pipe !! 0%nat
    = Some (TcpConn "10.0.0.9:4711" false (Some "broken pipe"))
  ∧ 0 < wg broken_pipe
  ∧ trace (semConn_Close 0%nat broken_pipe).2
      = [EConnClose 0%nat (Some "broken pipe");
         ELog "connection to 10.0.0.9:4711 closed";
         EWgAdd (-1)]
  ∧ wg (semConn_Close 0%nat broken_pipe).2 = 0
  ∧ (semConn_Close 0%nat broken_pipe).1 = Returned (Some "broken pipe").
Proof.
  destruct (semConn_Close_then_Done broken_pipe 0%nat
              (TcpConn "10.0.0.9:4711" false (Some "broken pipe")) eq_refl)
    as (Htr & Hwg & Hret).
  split_and!; [reflexivity|reflexivity|exact Htr|exact Hwg|exact (Hret eq_refl)].
Defined.

(** Once the goroutine of [waitForClose] has run, on a listener open or
    already closed, it has returned without panic whatever [Close] said,
    and every later [Accept], however many, fails with the error of the
    closed listener: nothing is handed out, and counter and heap stay as
    they were. *)
Theorem waitForClose_stops_accepting (w : world tcpConn tcpListener) (k : nat) :
  (waitForClose_body w).1 = Returned tt
  ∧ ∃ w',
      Accept_times k (waitForClose_body w).2
        = (Returned (replicate k (NilConn, Some errClosing)), w')
      ∧ wg w' = wg w
      ∧ conns w' = conns w
      ∧ next w' = next w
      ∧ lclosed (listener w') = true.
Proof.
  split.
  - unfold waitForClose_body, Listener_Close, log_Printf, emit.
    unfold mbind, mret, M_bind, M_ret, bind, ret. simpl.
    by destruct (lclosed (listener w)).
  - assert (wg (waitForClose_body w).2 = wg w
            ∧ conns (waitForClose_body w).2 = conns w
            ∧ next (waitForClose_body w).2 = next w) as (Hwg & Hconns & Hnext).
    { unfold waitForClose_body, Listener_Close, log_Printf, emit.
      unfold mbind, mret, M_bind, M_ret, bind, ret. simpl.
      by destruct (lclosed (listener w)). }
    pose proof (waitForClose_closes w) as Hcl.
    revert Hwg Hconns Hnext Hcl. generalize (waitForClose_body w).2. clear.
    induction k as [|k IH]; intros w1 Hwg Hconns Hnext Hcl.
    + exists w1. by split_and!.
    + destruct (IH (World (wg w1) (conns w1) (next w1) (listener w1)
                          (trace w1 ++ [EListenerAccept (Some errClosing)])))
        as (w' & Hrun & ?); [done..|].
      exists w'. split; [|done].
      simpl. unfold mbind at 1, M_bind, bind.
      rewrite (tcp_closed_Accept _ Hcl).
      unfold mbind, mret, M_bind, M_ret, bind, ret in *. by rewrite Hrun.
Qed.

Lemma Accept_counts_what_it_wraps_witness :
  0 ≤ wg two_waiting
  ∧ heap_ok two_waiting
  ∧ (stoppableListener_Accept two_waiting).1 = Returned (SemConn 0%nat, None)
  ∧ wg (stoppableListener_Accept two_waiting).2 = 1.
Proof.
  assert (heap_ok two_waiting) as Hheap.
  { intros h Hin. by apply elem_of_dom in Hin as [c Hc]. }
  destruct (Accept_counts_what_it_wraps two_waiting ltac:(done) Hheap)
    as [(c & _ & Hret & Hwg & _)|[Hwg _]].
  - split_and!; [done|exact Hheap|exact Hret|exact Hwg].
  - discriminate Hwg.
Defined.

Lemma one_left_held :
  hand_over (SemConn 1%nat) (hand_over (SemConn 0%nat) ∅) ∖ {[0%nat]}
  = ({[1%nat]} : gset handle).
Proof.
  apply set_eq. intros h. simpl.
  rewrite elem_of_difference, !elem_of_union, !elem_of_singleton, elem_of_empty.
  split.
  - intros [Hin Hne]. by destruct Hin as [[Hf|Heq]|Heq].
  - intros ->. split; [by right|done].
Qed.

Lemma one_left_reachable :
  rtc conn_step (∅, two_waiting) ({[1%nat]}, one_left).
Proof.
  rewrite <- one_left_held.
  eapply rtc_l.
  { apply (conn_accept ∅ two_waiting (SemConn 0%nat) None
             (stoppableListener_Accept two_waiting).2).
    by vm_compute. }
  eapply rtc_l.
  { apply (conn_accept _ (stoppableListener_Accept two_waiting).2
             (SemConn 1%nat) None two_accepted).
    by vm_compute. }
  eapply rtc_l.
  { apply (conn_close _ two_accepted 0%nat None one_left).
    - simpl. apply elem_of_union. left. apply elem_of_union. right.
      by apply elem_of_singleton.
    - by vm_compute. }
  apply rtc_refl.
Defined.

Lemma counter_counts_held_witness :
  wg two_waiting = 0
  ∧ heap_ok two_waiting
  ∧ rtc conn_step (∅, two_waiting) ({[1%nat]}, one_left)
  ∧ wg one_left = 1
  ∧ (wg one_left = 0 ↔ ({[1%nat]} : gset handle) = ∅).
Proof.
  assert (heap_ok two_waiting) as Hheap.
  { intros h Hin. by apply elem_of_dom in Hin as [c Hc]. }
  destruct (counter_counts_held two_waiting {[1%nat]} one_left eq_refl Hheap
              one_left_reachable) as (Hwg & Hzero & _).
  rewrite size_singleton in Hwg.
  split_and!; [done|exact Hheap|exact one_left_reachable|exact Hwg|exact Hzero].
Defined.

(** The counter after two accepted clients, and after the first of them
    was closed twice: zero, with the second client still open. *)
Example two_accepted_counter :
  wg two_accepted = 2
  ∧ wg (Close_times 2 0%nat two_accepted).2 = 0
  ∧ closed <$> conns (Close_times 2 0%nat two_accepted).2 !! 1%nat = Some false
  ∧ (Close_times 3 0%nat two_accepted).1
      = Panicked "sync: negative WaitGroup counter".
Proof. vm_compute. done. Qed.

(** C1 as stated fails: closing one tracked connection twice takes two off
    the counter, not one. *)
Lemma double_Close_decrements_twice :
  ¬ (∀ (w : world tcpConn tcpListener) (h : handle) (k : nat),
       is_Some (conns w !! h) → 0 < wg w → (1 ≤ k)%nat →
       wg (Close_times k h w).2 = wg w - 1 ∧ 0 ≤ wg (Close_times k h w).2).
Proof.
  intros Hclaim.
  destruct (Hclaim two_accepted 0%nat 2%nat) as [Hwg _].
  - by eexists.
  - done.
  - lia.
  - vm_compute in Hwg. discriminate.
Qed.

Lemma closed_twice_reachable :
  rtc pool_step (pool_of [0%nat; 0%nat] two_accepted) closed_twice.
Proof.
  eapply rtc_l; [eapply (pool_run _ _ 0%nat); reflexivity|simpl].
  eapply rtc_l; [eapply (pool_run _ _ 1%nat); reflexivity|simpl].
  eapply rtc_l; [eapply (pool_run _ _ 1%nat); reflexivity|simpl].
  eapply rtc_l; [eapply (pool_run _ _ 0%nat); reflexivity|simpl].
  eapply rtc_l; [eapply (pool_run _ _ 0%nat); reflexivity|simpl].
  eapply rtc_l; [eapply (pool_run _ _ 1%nat); reflexivity|simpl].
  apply rtc_refl.
Defined.

Lemma Close_decrements_per_call_witness :
  (∀ h, h ∈ [0%nat; 0%nat] → is_Some (conns two_accepted !! h))
  ∧ rtc pool_step (pool_of [0%nat; 0%nat] two_accepted) closed_twice
  ∧ Z.of_nat (length [0%nat; 0%nat]) ≤ wg two_accepted
  ∧ finished closed_twice
  ∧ wg (shared closed_twice) = wg two_accepted - 2
  ∧ crashed closed_twice = None
  ∧ 0 ≤ wg (shared closed_twice).
Proof.
  assert (∀ h, h ∈ [0%nat; 0%nat] → is_Some (conns two_accepted !! h)) as Hhs.
  { intros h Hh.
    apply elem_of_cons in Hh as [->|Hh]; [by eexists|].
    apply list_elem_of_singleton in Hh as ->. by eexists. }
  assert (Z.of_nat (length [0%nat; 0%nat]) ≤ wg two_accepted) as Hle by done.
  assert (finished closed_twice) as Hfin by (by repeat constructor).
  destruct (Close_decrements_per_call two_accepted [0%nat; 0%nat] closed_twice
              Hhs closed_twice_reachable) as (Hdone & Hsafe & _).
  destruct (Hsafe Hle) as [Hc Hpos].
  split_and!; [exact Hhs|exact closed_twice_reachable|exact Hle|exact Hfin
              |exact (Hdone Hc Hfin)|exact Hc|exact Hpos].
Defined.

(** ** The file watcher *)

(** The test [evt.Op&fsnotify.Create == fsnotify.Create] reads the lowest
    bit of the operation. *)
Lemma is_create_testbit evt : is_create evt = Z.testbit (Op evt) 0.
Proof.
  unfold is_create, Create. rewrite Z.bit0_odd.
  change 1 with (Z.ones 1). rewrite Z.land_ones by lia.
  change (2 ^ 1) with 2. rewrite Zmod_odd.
  by destruct (Z.odd (Op evt)).
Qed.

Lemma watcher_loop_nil st : watcher_loop [] st = st.
Proof. by destruct st as [c f lg []]. Qed.

Lemma watcher_loop_cons sel sels st :
  status st = Watching →
  watcher_loop (sel :: sels) st = watcher_loop sels (watcher_iter sel st).
Proof. intros Hst. simpl. by rewrite Hst. Qed.

Lemma watcher_loop_halted sels st :
  status st ≠ Watching → watcher_loop sels st = st.
Proof. destruct sels; destruct st as [c f lg []]; simpl; done. Qed.

Lemma watcher_loop_app sels1 sels2 st :
  watcher_loop (sels1 ++ sels2) st = watcher_loop sels2 (watcher_loop sels1 st).
Proof.
  revert st. induction sels1 as [|sel sels1 IH]; intros st.
  - by rewrite watcher_loop_nil.
  - destruct (decide (status st = Watching)) as [Hst|Hst].
    + simpl. rewrite Hst. apply IH.
    + by rewrite !(watcher_loop_halted _ st).
Qed.

Lemma watcher_iter_non_create sel st : non_create sel → watcher_iter sel st = st.
Proof.
  intros (evt & -> & Hbit). simpl. by rewrite is_create_testbit, Hbit.
Qed.

Lemma watcher_loop_non_create sels st :
  Forall non_create sels → watcher_loop sels st = st.
Proof.
  induction 1 as [|sel sels Hsel _ IH]; [apply watcher_loop_nil|].
  destruct (decide (status st = Watching)) as [Hst|Hst].
  - rewrite (watcher_loop_cons _ _ _ Hst).
    by rewrite (watcher_iter_non_create _ _ Hsel).
  - by apply watcher_loop_halted.
Qed.

Lemma close_calls_non_create sels st :
  Forall non_create sels → close_calls sels st = 0%nat.
Proof.
  induction 1 as [|sel sels Hsel _ IH]; [by destruct st as [c f lg []]|].
  simpl. destruct (status st); try done.
  rewrite (watcher_iter_non_create _ _ Hsel), IH.
  destruct Hsel as (evt & -> & Hbit). by rewrite is_create_testbit, Hbit.
Qed.

(** C8. Events without the [Create] bit, however many, leave the watcher
    as it was: [newBin] is not closed and the loop goes on.  The signal
    goes from pending to fired in an iteration exactly when the event
    received has the [Create] bit.  The name of the file plays no part. *)
Theorem only_create_fires :
  (∀ sels st, Forall non_create sels →
     watcher_loop sels st = st ∧ close_calls sels st = 0%nat)
  ∧ (∀ sel st, newBin st = Open →
       (newBin (watcher_iter sel st) = Closed
        ↔ ∃ evt, sel = RecvEvent evt ∧ Z.testbit (Op evt) 0 = true))
  ∧ (∀ name1 name2 op st,
       watcher_iter (RecvEvent (mkEvent name1 op)) st
       = watcher_iter (RecvEvent (mkEvent name2 op)) st).
Proof.
  split_and!.
  - intros sels st Hnc. split.
    + by apply watcher_loop_non_create.
    + by apply close_calls_non_create.
  - intros sel st Hopen. split.
    + destruct sel as [evt|err|]; simpl.
      * rewrite is_create_testbit. destruct (Z.testbit (Op evt) 0) eqn:Hbit.
        -- intros _. by exists evt.
        -- rewrite Hopen. done.
      * rewrite Hopen. done.
      * rewrite Hopen. done.
    + intros (evt & -> & Hbit). simpl.
      by rewrite is_create_testbit, Hbit, Hopen.
  - intros name1 name2 op st. done.
Qed.

Lemma only_create_fires_witness :
  Forall non_create [RecvEvent (mkEvent "old.exe" Remove);
                     RecvEvent (mkEvent "access.log" Write);
                     RecvEvent (mkEvent "old.exe" (Z.lor Rename Chmod))]
  ∧ watcher_loop [RecvEvent (mkEvent "old.exe" Remove);
                  RecvEvent (mkEvent "access.log" Write);
                  RecvEvent (mkEvent "old.exe" (Z.lor Rename Chmod))] watcher0
    = watcher0
  ∧ newBin (watcher_iter (RecvEvent (mkEvent "notes.txt" (Z.lor Create Write)))
                         watcher0) = Closed.
Proof.
  assert (Forall non_create [RecvEvent (mkEvent "old.exe" Remove);
                             RecvEvent (mkEvent "access.log" Write);
                             RecvEvent (mkEvent "old.exe" (Z.lor Rename Chmod))])
    as Hnc.
  { repeat (apply Forall_cons; split; [by eexists|]). apply Forall_nil_2. }
  destruct only_create_fires as (Hquiet & Hfire & _).
  split_and!; [exact Hnc|exact (proj1 (Hquiet _ watcher0 Hnc))|].
  apply (Hfire _ watcher0 eq_refl). by eexists.
Defined.

(** The first event with the [Create] bit fires the signal. *)
Lemma first_create_fires pre evt :
  Forall non_create pre →
  Z.testbit (Op evt) 0 = true →
  watcher_loop (pre ++ [RecvEvent evt]) watcher0
  = Watcher Closed false ["New binary found. Preparing to shutdown."] Watching.
Proof.
  intros Hpre Hbit. rewrite watcher_loop_app, (watcher_loop_non_create _ _ Hpre).
  simpl. by rewrite is_create_testbit, Hbit.
Qed.

(** Once closed, [newBin] stays closed. *)
Lemma newBin_stays_closed sels : ∀ st,
  newBin st = Closed → newBin (watcher_loop sels st) = Closed.
Proof.
  induction sels as [|sel sels IH]; intros st Hcl.
  - by rewrite watcher_loop_nil.
  - destruct (decide (status st = Watching)) as [Hst|Hst].
    + rewrite (watcher_loop_cons _ _ _ Hst). apply IH.
      destruct sel as [evt|err|]; simpl; [|done..].
      destruct (is_create evt); [|done]. by rewrite Hcl.
    + by rewrite watcher_loop_halted.
Qed.

(** The loop does not leave after firing: a second event with the [Create]
    bit, received before the stop request, closes [newBin] again, and that
    is a panic. *)
Lemma second_create_panics pre evt1 mid evt2 post :
  Forall non_create pre →
  Z.testbit (Op evt1) 0 = true →
  Forall non_create mid →
  Z.testbit (Op evt2) 0 = true →
  status (watcher_loop (pre ++ [RecvEvent evt1] ++ mid ++ [RecvEvent evt2] ++ post)
                       watcher0)
  = Crashed "close of closed channel".
Proof.
  intros Hpre Hbit1 Hmid Hbit2.
  rewrite app_assoc, watcher_loop_app, (first_create_fires _ _ Hpre Hbit1).
  rewrite watcher_loop_app, (watcher_loop_non_create _ _ Hmid).
  rewrite watcher_loop_app. simpl. rewrite is_create_testbit, Hbit2. simpl.
  by rewrite watcher_loop_halted.
Qed.

(** C2 at two creations in a row: the first closes [newBin]; on the second
    the loop, still running, executes [close(newBin)] a second time and the
    process panics. *)
Theorem two_creations_crash :
  let sels := [RecvEvent (mkEvent "site-6417057c21.exe" Create);
               RecvEvent (mkEvent "site-6417057c21.exe.tmp" Create)] in
  watcher_loop (take 1 sels) watcher0
    = Watcher Closed false ["New binary found. Preparing to shutdown."] Watching
  ∧ status (watcher_loop sels watcher0) = Crashed "close of closed channel"
  ∧ close_calls sels watcher0 = 2%nat.
Proof. by vm_compute. Qed.

(** A runtime error of the watcher ends the process through [log.Fatalf],
    and the stop request ends the loop after closing the watcher. *)
Lemma watcher_error_fatal err st :
  status (watcher_iter (RecvError err) st)
  = Fatal ("File watcher error occurred: " +:+ err).
Proof. done. Qed.

Lemma watcher_stop st sels :
  status st = Watching →
  watcher_loop (RecvStop :: sels) st = Watcher (newBin st) true (wlog st) Stopped.
Proof. intros Hst. rewrite (watcher_loop_cons _ _ _ Hst). by apply watcher_loop_halted. Qed.

(** ** The bounded wait *)

Lemma drain_inv_init maxWait n : drain_inv maxWait (drain0 n).
Proof. split; simpl; done. Qed.

Lemma drain_inv_step maxWait s s' :
  drain_inv maxWait s → drain_step maxWait s s' → drain_inv maxWait s'.
Proof.
  intros [He Ht Hw Hc Hto Hac] Hstep.
  destruct Hstep; simpl in *; split; simpl; try done; try lia.
  - intros Hf. specialize (Ht Hf). lia.
  - intros Hp. specialize (Hw Hp). lia.
  - intros Hcl. by specialize (Hc Hcl).
  - intros _. by apply Hw.
Qed.

Lemma drain_inv_rtc maxWait s s' :
  drain_inv maxWait s → rtc (drain_step maxWait) s s' → drain_inv maxWait s'.
Proof. intros Hinv Hrtc. induction Hrtc; eauto using drain_inv_step. Qed.

Lemma drain_inv_reachable maxWait n s :
  rtc (drain_step maxWait) (drain0 n) s → drain_inv maxWait s.
Proof. apply drain_inv_rtc, drain_inv_init. Qed.


(** Both cases can be taken: the timeout from any state of the counter,
    after enough time, and [allClosed] after the connections left have been
    closed. *)
Lemma drain_can_time_out maxWait n :
  ∃ s, rtc (drain_step maxWait) (drain0 n) s
       ∧ taken s = Some TimedOut ∧ counter s = n.
Proof.
  destruct (decide (maxWait ≤ 0)) as [Hle|Hgt].
  - exists (Drain 0 n true InWait Open (Some TimedOut)). split; [|done].
    eapply rtc_l; [by apply step_timer|].
    eapply rtc_l; [apply step_select_timeout|]. apply rtc_refl.
  - exists (Drain (0 + maxWait) n true InWait Open (Some TimedOut)).
    split; [|done].
    eapply rtc_l; [apply (step_tick _ maxWait); lia|].
    eapply rtc_l; [apply step_timer; lia|].
    eapply rtc_l; [apply step_select_timeout|]. apply rtc_refl.
Qed.

Lemma drain_Done_all maxWait t f (k : nat) :
  rtc (drain_step maxWait) (Drain t (Z.of_nat k) f InWait Open None)
                           (Drain t 0 f InWait Open None).
Proof.
  induction k as [|k IH]; [apply rtc_refl|].
  eapply rtc_l; [apply step_Done; lia|].
  by replace (Z.of_nat (S k) - 1) with (Z.of_nat k) by lia.
Qed.

Lemma drain_can_finish maxWait n :
  0 ≤ n →
  ∃ s, rtc (drain_step maxWait) (drain0 n) s
       ∧ taken s = Some AllClosed ∧ elapsed s = 0.
Proof.
  intros Hn. exists (Drain 0 0 false Finished Closed (Some AllClosed)).
  split; [|done].
  unfold drain0. rewrite <- (Z2Nat.id n) by done.
  etrans; [apply drain_Done_all|].
  eapply rtc_l; [apply step_Wait|].
  eapply rtc_l; [apply step_close|].
  eapply rtc_l; [apply step_select_allClosed|]. apply rtc_refl.
Qed.

(** ** The process *)

(** What [main] does once the argument is there and neither the listener
    nor the watcher failed to be created. *)
Lemma main_serving e dir rest :
  args e = dir :: rest →
  listen_err e = None →
  newWatcher_err e = None →
  main e =
    ((flag_Visit e).1
     ++ [Listen "tcp4" (":" +:+ pretty (config_port e));
         Log "Starting watcher";
         NewWatcher;
         Go GoWatcher;
         WatcherAdd dir (add_err e);
         Go GoWaitForClose;
         HandleFunc "/";
         LogServer (mkServer (15 * Second) (15 * Second) (1 ≪ 20));
         Serve;
         Log "Stopping watching";
         CloseStopWatcher;
         Log ("Waiting for existing clients for upto "
              +:+ pretty (config_maxWait e) +:+ " seconds")]
     ++ (waitClients (drained e)
           (wrap64 (wrap64 (config_maxWait e) * Second))).1,
     (waitClients (drained e)
        (wrap64 (wrap64 (config_maxWait e) * Second))).2).
Proof.
  intros Hargs Hl Hw. unfold main, startWatcher. rewrite Hargs, Hl, Hw.
  assert (∃ t, flag_Visit e = (t, Done tt)) as [t Hfv].
  { unfold flag_Visit, showFlags, log_Println, act.
    destruct (opt_maxWait e), (opt_port e); by eexists. }
  rewrite Hfv. simpl.
  by destruct (waitClients _ _) as [t' r].
Qed.

Lemma exit_status_serving e dir rest :
  args e = dir :: rest →
  listen_err e = None →
  newWatcher_err e = None →
  exit_status (main e) = match drained e with AllClosed => 0 | TimedOut => -1 end.
Proof.
  intros Hargs Hl Hw. unfold exit_status.
  rewrite (main_serving _ _ _ Hargs Hl Hw). simpl. by destruct (drained e).
Qed.

(** Whatever the scheduler does, a case of the [select] is taken only when
    it is ready: [allClosed] only with the counter at zero, the timeout only
    with the deadline passed. *)
Lemma select_case_sound maxWait n s :
  rtc (drain_step maxWait) (drain0 n) s →
  (taken s = Some AllClosed → counter s = 0 ∧ allClosed s = Closed)
  ∧ (taken s = Some TimedOut → maxWait ≤ elapsed s).
Proof.
  intros Hrtc.
  destruct (drain_inv_reachable _ _ _ Hrtc) as [He Ht Hwt Hc Hto Hac].
  split.
  - intros Htaken. split; [|by apply Hac]. apply Hwt.
    by rewrite (Hc (Hac Htaken)).
  - intros Htaken. by apply Ht, Hto.
Qed.


(** *** Timely runs *)




Lemma finished_closed maxWait s s' :
  (waiter s = Finished → allClosed s = Closed) →
  rtc (drain_step maxWait) s s' →
  waiter s' = Finished → allClosed s' = Closed.
Proof.
  intros Hs Hrtc. induction Hrtc as [|s1 s2 s3 Hstep _ IH]; [done|].
  apply IH. destruct Hstep; simpl in *; done.
Qed.

Lemma settled_start maxWait n s :
  rtc (drain_step maxWait) (drain0 n) s →
  counter s = 0 →
  elapsed s < maxWait →
  settled (elapsed s) s.
Proof.
  intros Hrtc Hz Hlt.
  destruct (drain_inv_reachable _ _ _ Hrtc) as [He Ht Hwt Hc Hto Hac].
  assert (timeout s = false) as Hf.
  { destruct (timeout s); [|done]. specialize (Ht eq_refl). lia. }
  refine (conj Hz (conj eq_refl (conj Hf (conj _ _)))).
  - split; [|done]. intros Hfin.
    by apply (finished_closed maxWait (drain0 n) s).
  - intros [|] Htaken.
    + rewrite (Hto Htaken) in Hf. done.
    + split; [done|]. by apply Hc, Hac.
Qed.

Lemma settled_step maxWait t0 s s' :
  t0 < maxWait →
  settled t0 s →
  timely_step maxWait s s' →
  settled t0 s' ∧ S (steps_left s') = steps_left s.
Proof.
  intros Hlt (Hz & Ht0 & Hf & Hfin & Htk) (Hstep & Hsel & Htick).
  destruct Hstep as [dt t n f p c Hdt|t n p c Hdue|t n f p c Hn|t f c|t n f
                    |t n p c|t n f p]; simpl in *; subst.
  - destruct Htick as [Hrun _]; [lia|]. destruct p.
    + destruct Hrun. by left.
    + destruct Hrun. by right.
    + destruct Hsel; [|done]. right. by apply Hfin.
  - lia.
  - lia.
  - split; [|done]. split_and!; [done..| |done].
    split; [done|]. intros Hc. by apply Hfin in Hc.
  - split; [|done]. by split_and!.
  - done.
  - assert (p = Finished) as -> by by apply Hfin.
    split; [|done]. split_and!; [done..|].
    by intros b [= <-].
Qed.

Lemma settled_progress maxWait t0 s :
  settled t0 s → taken s = None → ∃ s', timely_step maxWait s s'.
Proof.
  intros (Hz & Ht0 & Hf & Hfin & Htk).
  destruct s as [t n f p c b]. simpl in *. subst. intros ->.
  assert (∀ s s' : drain, elapsed s = elapsed s' →
            elapsed s ≠ elapsed s' → ¬ can_run s ∧ elapsed s' ≤ maxWait)
    as Hsame by (by intros s s' Heq Hne).
  destruct p.
  - assert (c = Open) as ->.
    { destruct c; [done|]. discriminate (proj2 Hfin eq_refl). }
    exists (Drain t0 0 false AfterWait Open None).
    split_and!; [apply step_Wait|by intros [?|?]|by apply Hsame].
  - assert (c = Open) as ->.
    { destruct c; [done|]. discriminate (proj2 Hfin eq_refl). }
    exists (Drain t0 0 false Finished Closed None).
    split_and!; [apply step_close|by intros [?|?]|by apply Hsame].
  - rewrite (proj1 Hfin eq_refl).
    exists (Drain t0 0 false Finished Closed (Some AllClosed)).
    split_and!; [apply step_select_allClosed|done|by apply Hsame].
Qed.

Lemma settled_nsteps maxWait t0 k s s' :
  t0 < maxWait →
  settled t0 s →
  nsteps (timely_step maxWait) k s s' →
  settled t0 s' ∧ (k + steps_left s' = steps_left s)%nat.
Proof.
  intros Hlt Hs Hn. induction Hn as [s|k s1 s2 s3 Hstep _ IH]; [done|].
  destruct (settled_step _ _ _ _ Hlt Hs Hstep) as [Hs2 Hleft].
  destruct (IH Hs2) as [Hs3 Hk]. split; [done|lia].
Qed.








(** C4 as stated fails: with a deadline of zero the timer is due at the
    call, and in a timely run the [select] may take the timeout although
    the counter is zero and no time has passed. *)
Lemma zero_deadline_may_time_out :
  ¬ (∀ maxWait s b,
       rtc (timely_step maxWait) (drain0 0) s →
       taken s = Some b → elapsed s = 0 → b = AllClosed).
Proof.
  intros Hclaim.
  assert (rtc (timely_step 0) (drain0 0)
              (Drain 0 0 true InWait Open (Some TimedOut))) as Hrun.
  { eapply rtc_l.
    { split_and!; [by apply step_timer|by intros [?|?]|by intros Hne]. }
    eapply rtc_l.
    { split_and!; [apply step_select_timeout|done|by intros Hne]. }
    apply rtc_refl. }
  by specialize (Hclaim 0 _ TimedOut Hrun eq_refl eq_refl).
Qed.

(** The deadline is zero with [-maxWait 0], and not positive either with a
    number of seconds whose count of nanoseconds does not fit 64 bits. *)
Example deadline_not_positive :
  wrap64 (wrap64 0 * Second) = 0
  ∧ wrap64 (wrap64 (-1) * Second) < 0
  ∧ wrap64 (wrap64 9223372037 * Second) < 0.
Proof. by vm_compute. Qed.

(** Whatever the scheduler does, with the counter at zero the wait can
    end at once through [allClosed], and before the deadline has passed
    it cannot end through the timeout. *)
Lemma no_timeout_before_deadline maxWait :
  (∃ s, rtc (drain_step maxWait) (drain0 0) s
        ∧ taken s = Some AllClosed ∧ elapsed s = 0)
  ∧ (∀ n s b, rtc (drain_step maxWait) (drain0 n) s →
              taken s = Some b → elapsed s < maxWait → b = AllClosed).
Proof.
  split.
  - by apply drain_can_finish.
  - intros n s b Hrtc Htaken Hlt. destruct b; [|done].
    pose proof (proj2 (select_case_sound _ _ _ Hrtc) Htaken). lia.
Qed.

(** C4, for the deadlines it holds for.  With a positive deadline and the
    counter at zero at the call, every timely run of the wait is the
    same three steps, [wg.Wait()] returning, [close(allClosed)] and the
    [select] taking [allClosed]: no time passes, the run cannot stop
    before the [select] has taken its case, and the case is never the
    timeout. *)
Theorem zero_counter_returns_at_once maxWait k s :
  0 < maxWait →
  nsteps (timely_step maxWait) k (drain0 0) s →
  (k + steps_left s = 3)%nat
  ∧ elapsed s = 0
  ∧ (taken s = None → ∃ s', timely_step maxWait s s')
  ∧ (∀ b, taken s = Some b → b = AllClosed).
Proof.
  intros Hpos Hk.
  assert (settled 0 (drain0 0)) as Hs0.
  { apply (settled_start maxWait 0 (drain0 0)); [apply rtc_refl|done|done]. }
  destruct (settled_nsteps _ _ _ _ _ Hpos Hs0 Hk) as [Hs Hleft].
  split_and!.
  - exact Hleft.
  - by destruct Hs as (_ & ? & _).
  - by eapply settled_progress.
  - intros b Htaken. destruct Hs as (_ & _ & _ & _ & Htk).
    by destruct (Htk b Htaken).
Qed.

Lemma three_closed_in_three :
  nsteps (timely_step (30 * Second)) 3 (drain0 0) three_closed.
Proof.
  eapply nsteps_l.
  { split_and!; [apply step_Wait|by intros [?|?]|by intros Hne]. }
  eapply nsteps_l.
  { split_and!; [apply step_close|by intros [?|?]|by intros Hne]. }
  eapply nsteps_l.
  { split_and!; [apply step_select_allClosed|done|by intros Hne]. }
  apply nsteps_O.
Defined.

Lemma zero_counter_returns_at_once_witness :
  0 < 30 * Second
  ∧ nsteps (timely_step (30 * Second)) 3 (drain0 0) three_closed
  ∧ elapsed three_closed = 0
  ∧ taken three_closed = Some AllClosed.
Proof.
  destruct (zero_counter_returns_at_once (30 * Second) 3 three_closed
              eq_refl three_closed_in_three) as (_ & Hel & _ & Hout).
  split_and!; [reflexivity|exact three_closed_in_three|exact Hel|reflexivity].
Defined.

(** A watcher that cannot be created ends the process with status 1 before
    anything is served, and so does a listener that cannot be bound. *)
Lemma newWatcher_failure_is_fatal e dir rest err :
  args e = dir :: rest →
  listen_err e = None →
  newWatcher_err e = Some err →
  main e = ((flag_Visit e).1
            ++ [Listen "tcp4" (":" +:+ pretty (config_port e));
                Log "Starting watcher";
                NewWatcher;
                Log ("Could not create watcher: " +:+ err)],
            Exit 1).
Proof.
  intros Hargs Hl Hw. unfold main, startWatcher. rewrite Hargs, Hl, Hw.
  assert (∃ t, flag_Visit e = (t, Done tt)) as [t Hfv].
  { unfold flag_Visit, showFlags, log_Println, act.
    destruct (opt_maxWait e), (opt_port e); by eexists. }
  by rewrite Hfv.
Qed.

Lemma listen_failure_is_fatal e dir rest err :
  args e = dir :: rest →
  listen_err e = Some err →
  main e = ((flag_Visit e).1
            ++ [Listen "tcp4" (":" +:+ pretty (config_port e));
                Log ("Could not create listener: " +:+ err)],
            Exit 1).
Proof.
  intros Hargs Hl. unfold main. rewrite Hargs, Hl.
  assert (∃ t, flag_Visit e = (t, Done tt)) as [t Hfv].
  { unfold flag_Visit, showFlags, log_Println, act.
    destruct (opt_maxWait e), (opt_port e); by eexists. }
  by rewrite Hfv.
Qed.

(** What [w.Add] returns is dropped: whatever it is, the process goes on to
    serve. *)
Lemma Add_result_dropped e dir rest :
  args e = dir :: rest →
  listen_err e = None →
  newWatcher_err e = None →
  Serve ∈ (main e).1
  ∧ exit_status (main e) = match drained e with AllClosed => 0 | TimedOut => -1 end.
Proof.
  intros Hargs Hl Hw. split; [|by eapply exit_status_serving].
  rewrite (main_serving _ _ _ Hargs Hl Hw). simpl.
  apply elem_of_app. right.
  do 8 (apply elem_of_cons; right). apply elem_of_cons. by left.
Qed.

(** C5 at a directory that cannot be watched: [w.Add] fails, nothing is
    reported, and the process serves, and later ends with the status of a
    regular shutdown. *)
Theorem unwatchable_dir_is_served :
  add_err unwatchable_dir = Some "The system cannot find the file specified."
  ∧ main unwatchable_dir =
      ([Listen "tcp4" ":8000";
        Log "Starting watcher";
        NewWatcher;
        Go GoWatcher;
        WatcherAdd "_targte" (Some "The system cannot find the file specified.");
        Go GoWaitForClose;
        HandleFunc "/";
        LogServer (mkServer 15000000000 15000000000 1048576);
        Serve;
        Log "Stopping watching";
        CloseStopWatcher;
        Log "Waiting for existing clients for upto 30 seconds";
        TimeAfter 30000000000;
        Go GoWaitAll;
        Select AllClosed;
        Log "All connection closed. Shutting down."],
       Done tt)
  ∧ exit_status (main unwatchable_dir) = 0.
Proof. by vm_compute. Qed.

(** C9. Without the positional argument [main] prints the usage line and
    exits with status 0 before anything else is done: no listener, no
    watcher.  A regular shutdown, with all connections closed in time, ends
    with the same status. *)
Theorem missing_argument_exits_zero e :
  args e = [] →
  main e = ([Println "Usage: go-azure-website <dir_to_watch>"], Exit 0)
  ∧ exit_status (main e) = 0
  ∧ (∀ e' dir rest,
       args e' = dir :: rest → listen_err e' = None →
       newWatcher_err e' = None → drained e' = AllClosed →
       exit_status (main e') = exit_status (main e)).
Proof.
  intros Hargs.
  assert (main e = ([Println "Usage: go-azure-website <dir_to_watch>"], Exit 0))
    as Hmain by (unfold main; by rewrite Hargs).
  split_and!; [done|by rewrite Hmain|].
  intros e' dir rest Hargs' Hl Hw Hd.
  rewrite (exit_status_serving _ _ _ Hargs' Hl Hw), Hd. by rewrite Hmain.
Qed.

Lemma missing_argument_exits_zero_witness :
  args no_argument = []
  ∧ main no_argument = ([Println "Usage: go-azure-website <dir_to_watch>"], Exit 0)
  ∧ exit_status (main all_closed_in_time) = exit_status (main no_argument).
Proof.
  destruct (missing_argument_exits_zero no_argument eq_refl) as (Hmain & _ & Hsame).
  split_and!; [reflexivity|exact Hmain|].
  exact (Hsame all_closed_in_time "_target" [] eq_refl eq_refl eq_refl eq_refl).
Defined.

(** ** The request handler *)

(** On any response whose header has not been sent, the value is appended
    to those the key has, and status and body are as said. *)
Lemma rootHandler_unsent w r :
  wroteHeader w = false →
  rootHandler w r
  = mkResponse (Header_Add "Content-Type" "application/json" (header w)) true 200
               (Header_Add "Content-Type" "application/json" (header w))
               (body w +:+ hello).
Proof.
  intros Hw. unfold rootHandler, Fprint, Write_, WriteHeader. simpl.
  by rewrite Hw.
Qed.

(** C10. On the response the server hands it, the handler sends status 200
    with the single header [Content-Type: application/json] and the fixed
    body, and it does so for every request; on any response whatever, what
    it does is the same for any two requests. *)
Theorem rootHandler_fixed_response :
  (∀ r : Request,
     rootHandler newResponse r
     = mkResponse {["Content-Type" := ["application/json"]]} true 200
                  {["Content-Type" := ["application/json"]]} hello
     ∧ Header_Get "Content-Type" (sentHeader (rootHandler newResponse r))
       = "application/json")
  ∧ (∀ (w : ResponseWriter) (r1 r2 : Request), rootHandler w r1 = rootHandler w r2)
  ∧ String.length hello = 41%nat.
Proof.
  split_and!; [|done|done].
  intros r. unfold rootHandler, Fprint, Write_, WriteHeader, newResponse. simpl.
  unfold Header_Add. rewrite lookup_empty. simpl.
  rewrite insert_empty. split; [done|].
  unfold Header_Get. by rewrite lookup_singleton_eq.
Qed.

(** ** More on the file watcher *)

Lemma close_calls_halted sels st :
  status st ≠ Watching → close_calls sels st = 0%nat.
Proof. destruct sels; destruct st as [c f lg []]; simpl; done. Qed.

Lemma close_calls_cons sel sels st :
  status st = Watching →
  close_calls (sel :: sels) st
  = ((match sel with
      | RecvEvent evt => if is_create evt then 1 else 0
      | _ => 0
      end) + close_calls sels (watcher_iter sel st))%nat.
Proof. intros Hst. simpl. by rewrite Hst. Qed.

Lemma fired_needs_create sels : ∀ st,
  status st = Watching →
  newBin st = Open →
  newBin (watcher_loop sels st) = Closed →
  ∃ pre evt post,
    sels = pre ++ RecvEvent evt :: post
    ∧ Forall non_create pre
    ∧ Z.testbit (Op evt) 0 = true.
Proof.
  induction sels as [|sel sels IH]; intros st Hst Hopen Hcl.
  - rewrite watcher_loop_nil in Hcl. congruence.
  - rewrite (watcher_loop_cons _ _ _ Hst) in Hcl.
    destruct sel as [evt|err|].
    + destruct (Z.testbit (Op evt) 0) eqn:Hbit.
      * exists [], evt, sels. by split_and!.
      * assert (non_create (RecvEvent evt)) as Hnc by by exists evt.
        rewrite (watcher_iter_non_create _ _ Hnc) in Hcl.
        destruct (IH st Hst Hopen Hcl) as (pre & evt' & post & -> & Hpre & Hbit').
        exists (RecvEvent evt :: pre), evt', post. split_and!; [done| |done].
        by apply Forall_cons.
    + rewrite watcher_loop_halted in Hcl by done. simpl in Hcl. congruence.
    + rewrite watcher_loop_halted in Hcl by done. simpl in Hcl. congruence.
Qed.

(** The signal is fired at the end of a run of the loop exactly when the
    loop received an event with the [Create] bit while it was still
    running, that is, after nothing but events without that bit: an error
    or a stop request received first ends the loop with the signal
    pending, whatever comes later. *)
Theorem signal_fired_iff_create_received sels :
  newBin (watcher_loop sels watcher0) = Closed
  ↔ ∃ pre evt post,
      sels = pre ++ RecvEvent evt :: post
      ∧ Forall non_create pre
      ∧ Z.testbit (Op evt) 0 = true.
Proof.
  split.
  - by apply fired_needs_create.
  - intros (pre & evt & post & -> & Hpre & Hbit).
    change (pre ++ RecvEvent evt :: post) with (pre ++ [RecvEvent evt] ++ post).
    rewrite app_assoc, watcher_loop_app, (first_create_fires _ _ Hpre Hbit).
    by apply newBin_stays_closed.
Qed.

Lemma crash_after_fired sels : ∀ st,
  status st = Watching →
  newBin st = Closed →
  (close_calls sels st ≤ 1)%nat
  ∧ ∀ msg, status (watcher_loop sels st) = Crashed msg
           ↔ msg = "close of closed channel" ∧ close_calls sels st = 1%nat.
Proof.
  induction sels as [|sel sels IH]; intros st Hst Hcl.
  - rewrite watcher_loop_nil. simpl. rewrite Hst. split; [lia|].
    intros msg. split; [done|]. intros [_ ?]. done.
  - rewrite (watcher_loop_cons _ _ _ Hst), (close_calls_cons _ _ _ Hst).
    destruct sel as [evt|err|]; simpl.
    + destruct (is_create evt) eqn:Hcr.
      * rewrite Hcl. simpl.
        rewrite watcher_loop_halted, close_calls_halted by done. simpl.
        split; [lia|]. intros msg. split; [by intros [= <-]|by intros [-> _]].
      * by apply IH.
    + rewrite watcher_loop_halted, close_calls_halted by done. simpl.
      split; [lia|]. intros msg. split; [done|]. intros [_ ?]. done.
    + rewrite watcher_loop_halted, close_calls_halted by done. simpl.
      split; [lia|]. intros msg. split; [done|]. intros [_ ?]. done.
Qed.

Lemma crash_before_fired sels : ∀ st,
  status st = Watching →
  newBin st = Open →
  (close_calls sels st ≤ 2)%nat
  ∧ ∀ msg, status (watcher_loop sels st) = Crashed msg
           ↔ msg = "close of closed channel" ∧ close_calls sels st = 2%nat.
Proof.
  induction sels as [|sel sels IH]; intros st Hst Hopen.
  - rewrite watcher_loop_nil. simpl. rewrite Hst. split; [lia|].
    intros msg. split; [done|]. intros [_ ?]. done.
  - rewrite (watcher_loop_cons _ _ _ Hst), (close_calls_cons _ _ _ Hst).
    destruct sel as [evt|err|]; simpl.
    + destruct (is_create evt) eqn:Hcr.
      * rewrite Hopen. simpl.
        destruct (crash_after_fired sels
                    (Watcher Closed (fsw_closed st)
                       (wlog st ++ ["New binary found. Preparing to shutdown."])
                       Watching) eq_refl eq_refl) as [Hle Hiff].
        split; [lia|]. intros msg. rewrite Hiff.
        split; intros [-> Hn]; (split; [done|lia]).
      * by apply IH.
    + rewrite watcher_loop_halted, close_calls_halted by done. simpl.
      split; [lia|]. intros msg. split; [done|]. intros [_ ?]. done.
    + rewrite watcher_loop_halted, close_calls_halted by done. simpl.
      split; [lia|]. intros msg. split; [done|]. intros [_ ?]. done.
Qed.

(** Whatever the loop receives, it executes [close(newBin)] at most twice,
    and it ends in a panic exactly when it does so a second time; the panic
    is then the one of closing a closed channel. *)
Theorem watcher_panics_iff_closed_twice sels :
  (close_calls sels watcher0 ≤ 2)%nat
  ∧ ∀ msg, status (watcher_loop sels watcher0) = Crashed msg
           ↔ msg = "close of closed channel"
             ∧ close_calls sels watcher0 = 2%nat.
Proof. by apply crash_before_fired. Qed.

Lemma close_calls_app sels1 sels2 : ∀ st,
  close_calls (sels1 ++ sels2) st
  = (close_calls sels1 st + close_calls sels2 (watcher_loop sels1 st))%nat.
Proof.
  induction sels1 as [|sel sels1 IH]; intros st.
  - rewrite watcher_loop_nil. simpl. by destruct (status st).
  - destruct (decide (status st = Watching)) as [Hst|Hst].
    + rewrite <- app_comm_cons, !(close_calls_cons _ _ _ Hst),
        (watcher_loop_cons _ _ _ Hst), IH. lia.
    + by rewrite (watcher_loop_halted _ _ Hst), !(close_calls_halted _ _ Hst).
Qed.

(** The loop ends at the first watcher error or stop request it receives
    while running.  The error ends the process through [log.Fatalf] with
    the watcher left open; the stop request closes the watcher and leaves
    the loop.  Neither touches the signal, and what is received after
    either is not looked at: an event with the [Create] bit that comes
    after the stop request neither fires the signal nor panics. *)
Theorem loop_ends_at_error_or_stop pre post st err :
  status (watcher_loop pre st) = Watching →
  watcher_loop (pre ++ RecvError err :: post) st
    = Watcher (newBin (watcher_loop pre st)) (fsw_closed (watcher_loop pre st))
              (wlog (watcher_loop pre st)
               ++ ["File watcher error occurred: " +:+ err])
              (Fatal ("File watcher error occurred: " +:+ err))
  ∧ watcher_loop (pre ++ RecvStop :: post) st
    = Watcher (newBin (watcher_loop pre st)) true (wlog (watcher_loop pre st))
              Stopped
  ∧ close_calls (pre ++ RecvError err :: post) st = close_calls pre st
  ∧ close_calls (pre ++ RecvStop :: post) st = close_calls pre st.
Proof.
  intros Hst. split_and!.
  - rewrite watcher_loop_app, (watcher_loop_cons _ _ _ Hst).
    by apply watcher_loop_halted.
  - rewrite watcher_loop_app, (watcher_loop_cons _ _ _ Hst).
    by apply watcher_loop_halted.
  - rewrite close_calls_app, (close_calls_cons _ _ _ Hst).
    rewrite (close_calls_halted post) by done. lia.
  - rewrite close_calls_app, (close_calls_cons _ _ _ Hst).
    rewrite (close_calls_halted post) by done. lia.
Qed.

Lemma loop_ends_at_error_or_stop_witness :
  status (watcher_loop [RecvEvent (mkEvent "access.log" Write)] watcher0)
    = Watching
  ∧ watcher_loop [RecvEvent (mkEvent "access.log" Write); RecvStop;
                  RecvEvent (mkEvent "site-6417057c21.exe" Create);
                  RecvEvent (mkEvent "site-6417057c21.exe" Create)] watcher0
    = Watcher Open true [] Stopped
  ∧ close_calls [RecvEvent (mkEvent "access.log" Write); RecvStop;
                 RecvEvent (mkEvent "site-6417057c21.exe" Create);
                 RecvEvent (mkEvent "site-6417057c21.exe" Create)] watcher0
    = 0%nat.
Proof.
  destruct (loop_ends_at_error_or_stop
              [RecvEvent (mkEvent "access.log" Write)]
              [RecvEvent (mkEvent "site-6417057c21.exe" Create);
               RecvEvent (mkEvent "site-6417057c21.exe" Create)]
              watcher0 "" eq_refl) as (_ & Hstop & _ & Hcalls).
  split_and!; [reflexivity|exact Hstop|exact Hcalls].
Defined.

Lemma closed_only_by_stop sels : ∀ st,
  status st = Watching →
  fsw_closed st = false →
  fsw_closed (watcher_loop sels st) = true
  ↔ status (watcher_loop sels st) = Stopped.
Proof.
  induction sels as [|sel sels IH]; intros st Hst Hf.
  - rewrite watcher_loop_nil, Hst, Hf. done.
  - rewrite (watcher_loop_cons _ _ _ Hst).
    destruct sel as [evt|err|]; simpl.
    + destruct (is_create evt); [|by apply IH].
      destruct (newBin st); simpl.
      * by apply IH.
      * rewrite watcher_loop_halted by done. simpl. by rewrite Hf.
    + rewrite watcher_loop_halted by done. simpl. by rewrite Hf.
    + rewrite watcher_loop_halted by done. done.
Qed.

(** The watcher is closed ([w.Close()]) at the end of a run exactly when
    the loop was left through the stop request: when the process ends by
    [log.Fatalf] or by the panic, and as long as the loop runs, the
    watcher is open. *)
Theorem watcher_closed_iff_stopped sels :
  fsw_closed (watcher_loop sels watcher0) = true
  ↔ status (watcher_loop sels watcher0) = Stopped.
Proof. by apply closed_only_by_stop. Qed.

(** ** More on the bounded wait *)

Lemma drain_shape_step maxWait s s' :
  drain_shape s → drain_step maxWait s s' → drain_shape s'.
Proof.
  intros [Hn Hf] Hstep. destruct Hstep; simpl in *; split; simpl;
    try done; try lia.
Qed.

Lemma drain_shape_rtc maxWait s s' :
  drain_shape s → rtc (drain_step maxWait) s s' → drain_shape s'.
Proof. intros Hs Hrtc. induction Hrtc; eauto using drain_shape_step. Qed.

Lemma drain_timeout_ahead maxWait t n f p c :
  ∃ s', rtc (drain_step maxWait) (Drain t n f p c None) s'
        ∧ taken s' = Some TimedOut ∧ counter s' = n.
Proof.
  destruct f.
  - exists (Drain t n true p c (Some TimedOut)). split; [|done].
    eapply rtc_l; [apply step_select_timeout|]. apply rtc_refl.
  - destruct (decide (maxWait ≤ t)) as [Hle|Hgt].
    + exists (Drain t n true p c (Some TimedOut)). split; [|done].
      eapply rtc_l; [by apply step_timer|].
      eapply rtc_l; [apply step_select_timeout|]. apply rtc_refl.
    + exists (Drain (t + (maxWait - t)) n true p c (Some TimedOut)).
      split; [|done].
      eapply rtc_l; [apply (step_tick _ (maxWait - t)); lia|].
      eapply rtc_l; [apply step_timer; lia|].
      eapply rtc_l; [apply step_select_timeout|]. apply rtc_refl.
Qed.

Lemma drain_Done_rest maxWait t f c (k : nat) :
  rtc (drain_step maxWait) (Drain t (Z.of_nat k) f InWait c None)
                           (Drain t 0 f InWait c None).
Proof.
  induction k as [|k IH]; [apply rtc_refl|].
  eapply rtc_l; [apply step_Done; lia|].
  by replace (Z.of_nat (S k) - 1) with (Z.of_nat k) by lia.
Qed.

Lemma drain_allClosed_ahead maxWait s :
  drain_inv maxWait s → drain_shape s → taken s = None →
  ∃ s', rtc (drain_step maxWait) s s'
        ∧ taken s' = Some AllClosed ∧ elapsed s' = elapsed s.
Proof.
  intros [He Ht Hw Hc Hto Hac] [Hn Hf].
  destruct s as [t n f p c b]. simpl in *. intros ->.
  destruct p.
  - assert (c = Open) as -> by (destruct c; [done|by specialize (Hc eq_refl)]).
    exists (Drain t 0 f Finished Closed (Some AllClosed)). split; [|done].
    rewrite <- (Z2Nat.id n) by done.
    etrans; [apply drain_Done_rest|].
    eapply rtc_l; [apply step_Wait|].
    eapply rtc_l; [apply step_close|].
    eapply rtc_l; [apply step_select_allClosed|]. apply rtc_refl.
  - assert (c = Open) as -> by (destruct c; [done|by specialize (Hc eq_refl)]).
    exists (Drain t n f Finished Closed (Some AllClosed)). split; [|done].
    eapply rtc_l; [apply step_close|].
    eapply rtc_l; [apply step_select_allClosed|]. apply rtc_refl.
  - rewrite (Hf eq_refl).
    exists (Drain t n f Finished Closed (Some AllClosed)). split; [|done].
    eapply rtc_l; [apply step_select_allClosed|]. apply rtc_refl.
Qed.

(** The wait cannot get stuck, and until the [select] has taken a case
    neither outcome is ruled out: from every state the wait can be in,
    started with a counter that is not negative, the timeout can still be
    taken, with the connections left as they are, and so can [allClosed],
    without any more time passing, once the connections left are closed. *)
Theorem wait_can_always_end maxWait n s :
  0 ≤ n →
  rtc (drain_step maxWait) (drain0 n) s →
  taken s = None →
  (∃ s', rtc (drain_step maxWait) s s'
         ∧ taken s' = Some TimedOut ∧ counter s' = counter s)
  ∧ (∃ s', rtc (drain_step maxWait) s s'
           ∧ taken s' = Some AllClosed ∧ elapsed s' = elapsed s).
Proof.
  intros Hn Hrtc Htaken. split.
  - destruct s as [t c f p ch b]. simpl in Htaken. subst b.
    apply drain_timeout_ahead.
  - apply drain_allClosed_ahead; [by eapply drain_inv_reachable| |done].
    eapply drain_shape_rtc; [|done]. by split.
Qed.

Lemma wait_can_always_end_witness :
  0 ≤ 3
  ∧ rtc (drain_step (2 * Second)) (drain0 3) (Drain 0 2 false InWait Open None)
  ∧ (∃ s', rtc (drain_step (2 * Second)) (Drain 0 2 false InWait Open None) s'
           ∧ taken s' = Some TimedOut ∧ counter s' = 2)
  ∧ (∃ s', rtc (drain_step (2 * Second)) (Drain 0 2 false InWait Open None) s'
           ∧ taken s' = Some AllClosed ∧ elapsed s' = 0).
Proof.
  assert (rtc (drain_step (2 * Second)) (drain0 3)
              (Drain 0 2 false InWait Open None)) as Hrun.
  { eapply rtc_l; [by apply step_Done|]. apply rtc_refl. }
  destruct (wait_can_always_end (2 * Second) 3 _ ltac:(done) Hrun eq_refl)
    as [Hout Hin].
  split_and!; [done|exact Hrun|exact Hout|exact Hin].
Defined.





(** ** More on the process *)

Lemma wrap64_small z : - 2 ^ 63 ≤ z < 2 ^ 63 → wrap64 z = z.
Proof. intros Hz. unfold wrap64. rewrite Z.mod_small; lia. Qed.

(** A number of seconds between zero and 9223372036 gives a deadline of
    exactly that many seconds: neither the conversion nor the product
    with [time.Second] wraps, and that duration is what [main] hands to
    the timer. *)
Theorem maxWait_seconds_honoured e dir rest :
  args e = dir :: rest →
  listen_err e = None →
  newWatcher_err e = None →
  0 ≤ config_maxWait e ≤ 9223372036 →
  wrap64 (wrap64 (config_maxWait e) * Second) = config_maxWait e * Second
  ∧ TimeAfter (config_maxWait e * Second) ∈ (main e).1
  ∧ (0 < config_maxWait e ↔ 0 < wrap64 (wrap64 (config_maxWait e) * Second)).
Proof.
  intros Hargs Hl Hw Hm.
  assert (wrap64 (wrap64 (config_maxWait e) * Second)
          = config_maxWait e * Second) as Heq.
  { rewrite (wrap64_small (config_maxWait e)) by lia.
    apply wrap64_small. unfold Second. lia. }
  split; [done|]. split; [|rewrite Heq; unfold Second; lia].
  rewrite (main_serving _ _ _ Hargs Hl Hw), Heq.
  apply elem_of_app. right. apply elem_of_app. right.
  unfold waitClients. destruct (drained e); simpl; apply elem_of_cons; by left.
Qed.

Lemma maxWait_seconds_honoured_witness :
  args all_closed_in_time = ["_target"]
  ∧ 0 ≤ config_maxWait all_closed_in_time ≤ 9223372036
  ∧ TimeAfter 2000000000 ∈ (main all_closed_in_time).1.
Proof.
  destruct (maxWait_seconds_honoured all_closed_in_time "_target" []
              eq_refl eq_refl eq_refl ltac:(done)) as (_ & Hin & _).
  split; [reflexivity|]. split; [done|exact Hin].
Defined.

Lemma main_usage e :
  args e = [] →
  main e = ([Println "Usage: go-azure-website <dir_to_watch>"], Exit 0).
Proof. intros Hargs. unfold main. by rewrite Hargs. Qed.

Lemma flag_Visit_logs e a : a ∈ (flag_Visit e).1 → ∃ s, a = Log s.
Proof.
  unfold flag_Visit, showFlags, log_Println, act.
  destruct (opt_maxWait e), (opt_port e); simpl; intros Hin;
    repeat (apply elem_of_cons in Hin as [->|Hin]; [by eexists|]);
    by apply elem_of_nil in Hin.
Qed.

Lemma waitClients_actions b d a :
  a ∈ (waitClients b d).1 →
  a = TimeAfter d ∨ a = Go GoWaitAll ∨ a = Select b ∨ ∃ s, a = Log s.
Proof.
  unfold waitClients. destruct b; simpl; intros Hin.
  all: apply elem_of_cons in Hin as [->|Hin]; [by left|].
  all: apply elem_of_cons in Hin as [->|Hin]; [by right; left|].
  all: apply elem_of_cons in Hin as [->|Hin]; [by right; right; left|].
  all: apply elem_of_cons in Hin as [->|Hin]; [by right; right; right; eexists|].
  all: by apply elem_of_nil in Hin.
Qed.

(** How far [main] gets.  The usage line is printed exactly when the
    argument is missing.  The watcher is asked for exactly when the
    argument is there and the listener could be bound.  The goroutines of
    the watcher and of [waitForClose] are started, and the server serves,
    exactly when moreover the watcher could be created: a process that
    serves has its watcher goroutine, and one that failed to start has
    served nothing. *)
Theorem main_stages e :
  (Println "Usage: go-azure-website <dir_to_watch>" ∈ (main e).1 ↔ args e = [])
  ∧ (NewWatcher ∈ (main e).1 ↔ args e ≠ [] ∧ listen_err e = None)
  ∧ (Go GoWatcher ∈ (main e).1
     ↔ args e ≠ [] ∧ listen_err e = None ∧ newWatcher_err e = None)
  ∧ (Go GoWaitForClose ∈ (main e).1
     ↔ args e ≠ [] ∧ listen_err e = None ∧ newWatcher_err e = None)
  ∧ (Serve ∈ (main e).1
     ↔ args e ≠ [] ∧ listen_err e = None ∧ newWatcher_err e = None).
Proof.
  assert (∀ x, (∀ s, x ≠ Log s) → x ∉ (flag_Visit e).1) as Hflags.
  { intros x Hx [s ->]%flag_Visit_logs. by destruct (Hx s). }
  assert (∀ b d x, (∀ s, x ≠ Log s) → x ≠ TimeAfter d → x ≠ Go GoWaitAll →
                   x ≠ Select b → x ∉ (waitClients b d).1) as Hwait.
  { intros b d x Hx H1 H2 H3 [?|[?|[?|[s ->]]]]%waitClients_actions; try done.
    by destruct (Hx s). }
  destruct (args e) as [|dir rest] eqn:Hargs.
  { rewrite (main_usage _ Hargs). simpl.
    split_and!; (split; [intros Hin|intros Hc]);
      first [done | by apply list_elem_of_here | by destruct Hc
            | apply list_elem_of_singleton in Hin; discriminate Hin]. }
  destruct (listen_err e) as [err|] eqn:Hl.
  { rewrite (listen_failure_is_fatal _ _ _ _ Hargs Hl). simpl.
    split_and!; (split; [intros Hin|intros Hc]);
      first [done | by destruct Hc as (_ & ? & _) | by destruct Hc as (_ & ?) | idtac].
    all: apply elem_of_app in Hin as [Hin|Hin]; [by apply Hflags in Hin|].
    all: repeat (apply elem_of_cons in Hin as [Hin|Hin]; [discriminate Hin|]).
    all: by apply elem_of_nil in Hin. }
  destruct (newWatcher_err e) as [err|] eqn:Hw.
  { rewrite (newWatcher_failure_is_fatal _ _ _ _ Hargs Hl Hw). simpl.
    split_and!; (split; [intros Hin|intros Hc]);
      first [done | by destruct Hc as (_ & _ & ?)
            | by (apply elem_of_app; right;
                  repeat first [apply list_elem_of_here|apply list_elem_of_further])
            | idtac].
    all: apply elem_of_app in Hin as [Hin|Hin]; [by apply Hflags in Hin|].
    all: repeat (apply elem_of_cons in Hin as [Hin|Hin]; [discriminate Hin|]).
    all: by apply elem_of_nil in Hin. }
  rewrite (main_serving _ _ _ Hargs Hl Hw). simpl.
  split_and!; (split; [intros Hin|intros Hc]);
    first [done
          | by (apply elem_of_app; right;
                repeat first [apply list_elem_of_here|apply list_elem_of_further])
          | idtac].
  apply elem_of_app in Hin as [Hin|Hin]; [by apply Hflags in Hin|].
  repeat (apply elem_of_cons in Hin as [Hin|Hin]; [discriminate Hin|]).
  by apply Hwait in Hin.
Qed.

(** When the listener cannot be bound or the watcher cannot be created,
    [main] ends the process with status 1, the message of [log.Fatalf]
    being the last thing it does: no goroutine has been started and
    nothing has been served, and a listener that cannot be bound keeps the
    watcher from being asked for. *)
Theorem startup_failure_exits_one e dir rest :
  args e = dir :: rest →
  listen_err e ≠ None ∨ newWatcher_err e ≠ None →
  exit_status (main e) = 1
  ∧ parent_status (main e) = 1
  ∧ last (main e).1 = Some (Log (fatal_message e))
  ∧ (Serve ∉ (main e).1)
  ∧ (∀ g, Go g ∉ (main e).1)
  ∧ (listen_err e ≠ None → NewWatcher ∉ (main e).1).
Proof.
  intros Hargs Hfail.
  assert (∀ x, (∀ s, x ≠ Log s) → x ∉ (flag_Visit e).1) as Hflags.
  { intros x Hx [s ->]%flag_Visit_logs. by destruct (Hx s). }
  unfold parent_status, exit_status, fatal_message.
  destruct (listen_err e) as [err|] eqn:Hl.
  - rewrite (listen_failure_is_fatal _ _ _ _ Hargs Hl). simpl.
    split_and!; [done|done| | | |].
    + by rewrite last_app_cons.
    + intros [Hin|Hin]%elem_of_app; [by apply Hflags in Hin|].
      repeat (apply elem_of_cons in Hin as [Hin|Hin]; [discriminate Hin|]).
      by apply elem_of_nil in Hin.
    + intros g [Hin|Hin]%elem_of_app; [by apply Hflags in Hin|].
      repeat (apply elem_of_cons in Hin as [Hin|Hin]; [discriminate Hin|]).
      by apply elem_of_nil in Hin.
    + intros _ [Hin|Hin]%elem_of_app; [by apply Hflags in Hin|].
      repeat (apply elem_of_cons in Hin as [Hin|Hin]; [discriminate Hin|]).
      by apply elem_of_nil in Hin.
  - destruct (newWatcher_err e) as [err|] eqn:Hw; [|by destruct Hfail].
    rewrite (newWatcher_failure_is_fatal _ _ _ _ Hargs Hl Hw). simpl.
    split_and!; [done|done| | | |done].
    + by rewrite last_app_cons.
    + intros [Hin|Hin]%elem_of_app; [by apply Hflags in Hin|].
      repeat (apply elem_of_cons in Hin as [Hin|Hin]; [discriminate Hin|]).
      by apply elem_of_nil in Hin.
    + intros g [Hin|Hin]%elem_of_app; [by apply Hflags in Hin|].
      repeat (apply elem_of_cons in Hin as [Hin|Hin]; [discriminate Hin|]).
      by apply elem_of_nil in Hin.
Qed.

Lemma startup_failure_exits_one_witness :
  args port_in_use = ["_target"]
  ∧ listen_err port_in_use ≠ None
  ∧ exit_status (main port_in_use) = 1
  ∧ last (main port_in_use).1
    = Some (Log "Could not create listener: listen tcp4 :80: bind: address already in use")
  ∧ NewWatcher ∉ (main port_in_use).1.
Proof.
  assert (listen_err port_in_use ≠ None) as Hl by done.
  destruct (startup_failure_exits_one port_in_use "_target" [] eq_refl
              (or_introl Hl)) as (Hst & _ & Hlast & _ & _ & Hnw).
  split_and!; [reflexivity|exact Hl|exact Hst|exact Hlast|exact (Hnw Hl)].
Defined.

(** ** More on the request handler *)

(** The handler adds its content type to the values the header may have
    already and replaces none: they stay in front, so that where a content
    type was set before, that one is still what the header yields; no
    other key of the header is touched. *)
Theorem rootHandler_adds_content_type w r :
  header (rootHandler w r) !! "Content-Type"
    = Some (default [] (header w !! "Content-Type") ++ ["application/json"])
  ∧ (∀ k, k ≠ "Content-Type" → header (rootHandler w r) !! k = header w !! k)
  ∧ (∀ v vs, header w !! "Content-Type" = Some (v :: vs) →
       Header_Get "Content-Type" (header (rootHandler w r)) = v)
  ∧ (header w !! "Content-Type" = None →
       Header_Get "Content-Type" (header (rootHandler w r)) = "application/json").
Proof.
  assert (header (rootHandler w r)
          = Header_Add "Content-Type" "application/json" (header w)) as ->.
  { unfold rootHandler, Fprint, Write_, WriteHeader. simpl.
    by destruct (wroteHeader w). }
  unfold Header_Get, Header_Add. split_and!.
  - by rewrite lookup_insert_eq.
  - intros k Hk. by rewrite lookup_insert_ne.
  - intros v vs Hv. by rewrite lookup_insert_eq, Hv.
  - intros Hnone. by rewrite lookup_insert_eq, Hnone.
Qed.



(** ** The deployment script *)

Lemma append_nil (s : string) : "" +:+ s = s.
Proof. reflexivity. Qed.

Lemma append_cons a (s1 s2 : string) : String a s1 +:+ s2 = String a (s1 +:+ s2).
Proof. reflexivity. Qed.

Lemma append_assoc (s1 s2 s3 : string) :
  (s1 +:+ s2) +:+ s3 = s1 +:+ s2 +:+ s3.
Proof.
  induction s1 as [|a s1 IH]; [done|]. by rewrite !append_cons, IH.
Qed.

Lemma contains_app c s1 s2 :
  contains c (s1 +:+ s2) = contains c s1 || contains c s2.
Proof.
  induction s1 as [|a s1 IH]; [done|].
  rewrite append_cons. simpl. by destruct (Ascii.eqb a c).
Qed.

Lemma strip_at_last c s1 s2 :
  contains c s2 = false → strip c (s1 +:+ String c s2) = s1.
Proof.
  intros Hs2. induction s1 as [|a s1 IH].
  - rewrite append_nil. simpl. by rewrite Ascii.eqb_refl, Hs2.
  - rewrite append_cons. simpl.
    rewrite IH, contains_app. simpl. rewrite Ascii.eqb_refl.
    rewrite orb_true_r. simpl. by rewrite andb_false_r.
Qed.

(** The value of [${ARTIFACT_NAME%-*}] is the site name, whatever
    hyphens the site name has, as long as the first ten characters of the
    commit have none: the name of the new build is that value, a hyphen,
    those characters and [.exe]. *)
Theorem name_prefix_is_site site commit :
  contains hyphen (DEPLOYMENT_ID commit) = false →
  name_prefix site commit = site
  ∧ ARTIFACT_NAME site commit
    = name_prefix site commit +:+ "-"
      +:+ String.substring 0 10 commit +:+ ".exe".
Proof.
  intros Hid.
  assert (name_prefix site commit = site) as Hpre.
  { unfold name_prefix, ARTIFACT_NAME.
    change (site +:+ "-" +:+ DEPLOYMENT_ID commit +:+ ".exe")
      with (site +:+ String hyphen (DEPLOYMENT_ID commit +:+ ".exe")).
    rewrite strip_at_last; [done|]. by rewrite contains_app, Hid. }
  split; [done|]. by rewrite Hpre.
Qed.

Lemma name_prefix_is_site_witness :
  contains hyphen (DEPLOYMENT_ID "6417057c21bf311adcb81fdb5ff78bf3b4908e71") = false
  ∧ name_prefix "go-azure" "6417057c21bf311adcb81fdb5ff78bf3b4908e71"
    = "go-azure"
  ∧ ARTIFACT_NAME "go-azure" "6417057c21bf311adcb81fdb5ff78bf3b4908e71"
    = "go-azure-6417057c21.exe".
Proof.
  destruct (name_prefix_is_site "go-azure"
              "6417057c21bf311adcb81fdb5ff78bf3b4908e71" eq_refl) as [Hpre _].
  split; [reflexivity|]. split; [exact Hpre|reflexivity].
Defined.

(** The value of [${TARGET_ARTIFACT%/*}] is the [_target] directory of
    the deployment source, the one the new build was written to, as long
    as neither the site name nor the first ten characters of the commit
    have a slash. *)
Theorem find_dir_is_target src site commit :
  contains slash site = false →
  contains slash (DEPLOYMENT_ID commit) = false →
  find_dir src site commit = src +:+ "/_target"
  ∧ TARGET_ARTIFACT src site commit
    = find_dir src site commit +:+ "/" +:+ ARTIFACT_NAME site commit.
Proof.
  intros Hsite Hid.
  assert (find_dir src site commit = src +:+ "/_target") as Hdir.
  { unfold find_dir, TARGET_ARTIFACT.
    assert (src +:+ "/_target/" +:+ ARTIFACT_NAME site commit
            = (src +:+ "/_target") +:+ String slash (ARTIFACT_NAME site commit))
      as -> by (by rewrite append_assoc).
    apply strip_at_last. unfold ARTIFACT_NAME.
    by rewrite !contains_app, Hsite, Hid. }
  split; [done|]. rewrite Hdir. unfold TARGET_ARTIFACT.
  by rewrite append_assoc.
Qed.

Lemma find_dir_is_target_witness :
  contains slash "go-azure" = false
  ∧ contains slash (DEPLOYMENT_ID "6417057c21bf311adcb81fdb5ff78bf3b4908e71") = false
  ∧ find_dir "/home/site/repository" "go-azure"
      "6417057c21bf311adcb81fdb5ff78bf3b4908e71"
    = "/home/site/repository/_target".
Proof.
  destruct (find_dir_is_target "/home/site/repository" "go-azure"
              "6417057c21bf311adcb81fdb5ff78bf3b4908e71" eq_refl eq_refl)
    as [Hdir _].
  split; [reflexivity|]. split; [reflexivity|exact Hdir].
Defined.
